(** * Signal handlers of django-computedfields: buffers, merger and router

    Shallow embedding of [computedfields/handlers.py].  The module keeps four
    dictionaries ([DELETES], [M2M_REMOVE], [M2M_CLEAR], [UPDATE_OLD]) that map
    a model instance to a dependent-update map, and five signal handlers that
    fill them before a mutation and drain them afterwards.  The resolver
    ([active_resolver]) and Django's model metadata are collaborators of the
    module; they enter the development as an interface. *)

From stdpp Require Import gmap strings list fin_maps.

Open Scope string_scope.
Open Scope list_scope.

(* stdpp's [set_solver] clears hypotheses by name. *)
Local Set Warnings "-clear-no-such-hyp".

(** ** Dependent-update maps *)

(** A model class is identified by its name, a record by its primary key. *)
Abbreviation Model := string (only parsing).
Abbreviation pk := Z (only parsing).

(** The value stored under a model: the two-element list [[pks, fields]]. *)
Abbreviation entry := (gset Z * gset string)%type (only parsing).

(** A dependent-update map is a dict [{model: [pks, fields]}].  A [gmap] is
    the dict up to [==]: it records which models the dict has and what is
    stored under each, not the order in which they were inserted. *)
Abbreviation pk_map := (gmap string (gset Z * gset string)) (only parsing).

(** [mm.setdefault(model, d)]: the stored value when [model] is a key,
    otherwise [d], which is then stored. *)
Definition setdefault (model : Model) (d : entry) (mm : pk_map)
  : pk_map * entry :=
  match mm !! model with
  | Some e => (mm, e)
  | None => (<[model := d]> mm, d)
  end.

(** One turn of the loop of [merge_pk_maps]:
    [m1_pks.update(m2_pks); m1_fields.update(m2_fields)] on the value that
    [setdefault] returned. *)
Definition merge_step (mm1 : pk_map) (item : Model * entry) : pk_map :=
  let '(model, (m2_pks, m2_fields)) := item in
  let '(mm1', (m1_pks, m1_fields)) := setdefault model (∅, ∅) mm1 in
  <[model := (m1_pks ∪ m2_pks, m1_fields ∪ m2_fields)]> mm1'.

(** [merge_pk_maps(mm1, mm2)]: add [mm2] onto [mm1]. *)
Definition merge_pk_maps (mm1 mm2 : pk_map) : pk_map :=
  fold_left merge_step (map_to_list mm2) mm1.

(** The union of two entries, and of two optional entries. *)
Definition entry_union (e1 e2 : entry) : entry :=
  (e1.1 ∪ e2.1, e1.2 ∪ e2.2).



(** The items of a dict and its keys, listed once each. *)
Definition items (mm : pk_map) : list (Model * entry) := map_to_list mm.
Definition keys (mm : pk_map) : list Model := (items mm).*1.

(** [mm.items()] lists the items of a dict in the order of their insertion.
    That order is not part of the value of the dict; it enters as
    [items_of], of which only this is known: it lists every item once. *)
Record DictOrder := {
  items_of : pk_map → list (Model * entry);
  items_of_perm : ∀ mm : pk_map, items_of mm ≡ₚ map_to_list mm
}.


(** ** Instances, query sets and field declarations *)

(** A model instance: its class, its primary key and [_state.adding].  A
    dict keyed by instances compares them by class and primary key. *)
Record Instance := {
  inst_type : Model;
  inst_pk : pk;
  inst_adding : bool
}.

Abbreviation key := (string * Z)%type (only parsing).

Definition inst_key (instance : Instance) : key :=
  (inst_type instance, inst_pk instance).

(** What the resolver is asked about: one instance, the lazy query set
    [model.objects.filter(pk__in=pks)], or the related manager's
    [getattr(instance, name).all()]. *)
Inductive Target :=
  | TInstance (instance : Instance)
  | TFilter (model : Model) (pks : gset Z)
  | TRelated (instance : Instance) (name : string).

(** The entries of [_meta.get_fields()] as far as the handlers look at them:
    the class of the field, its name, the junction model it goes through and
    the name of the field on the other end ([remote_field.name]). *)
Inductive FieldClass := ManyToManyField | ManyToManyRel | OtherField.

Record Field := {
  f_name : string;
  f_class : FieldClass;
  f_through : Model;
  f_remote_name : string
}.

(** [f.many_to_many] *)
Definition many_to_many (f : Field) : bool :=
  match f_class f with
  | ManyToManyField | ManyToManyRel => true
  | OtherField => false
  end.

(** [f.through if hasattr(f, 'through') else f.remote_field.through] *)
Definition through (f : Field) : Model := f_through f.

(** [isinstance(f, ManyToManyRel) and f.through == sender] *)
Definition is_rel_through (sender : Model) (f : Field) : bool :=
  match f_class f with
  | ManyToManyRel => bool_decide (f_through f = sender)
  | _ => false
  end.

(** The [old] argument of [update_dependent]: a captured map, or the [[]]
    that [UPDATE_OLD.pop(instance, [])] falls back to. *)
Inductive OldArg :=
  | OldEmptyList
  | OldMap (data : pk_map).

(** Calls into the resolver that reach the database, with the arguments the
    handlers pass (an argument left out at the call site is [None]). *)
Inductive Call :=
  | Call_preupdate_dependent (instance : Instance) (model : Model)
  | Call_querysets_for_update (model : Model) (t : Target) (pk_list : bool)
  | Call_update_dependent (t : Target) (model : option Model)
      (update_fields : option (gset string)) (old : option OldArg)
      (update_local : bool)
  | Call_bulk_updater (qs : Target) (fields : gset string).

Definition is_query (c : Call) : bool :=
  match c with
  | Call_preupdate_dependent _ _ | Call_querysets_for_update _ _ _ => true
  | _ => false
  end.

Definition is_recompute (c : Call) : bool :=
  match c with
  | Call_update_dependent _ _ _ _ _ | Call_bulk_updater _ _ => true
  | _ => false
  end.

(** Keyword arguments of the [pre_save] and [post_save] signals. *)
Record SaveKwargs := {
  raw : option bool;
  update_fields : option (gset string)
}.

(** Keyword arguments of the [m2m_changed] signal.  [pk_set] is only read
    by the add and remove actions. *)
Record M2MKwargs := {
  action : option string;
  model : Model;
  pk_set : gset Z;
  reverse : bool
}.

(** Truth value of [kwargs.get('raw')] and of a set-valued argument. *)
Definition truthy_flag (o : option bool) : bool := default false o.

Definition truthy_fields (o : option (gset string)) : bool :=
  match o with
  | Some s => bool_decide (s ≠ ∅)
  | None => false
  end.

(** The exceptions the handlers can end with: [[...][0]] on an empty list
    and [getattr] of a name the instance does not have. *)
Inductive Exn := IndexError | AttributeError.

Section handlers.

(** The state of the database. *)
Context {DB : Type}.

(** ** The resolver interface

    [active_resolver] as the handlers use it: the contributing-fk map, the
    two queries for dependent records (answered from the database as it is
    at the call) and the two recomputations (which write to it). *)
Record Resolver := {
  _fk_map : gmap string (gset string);
  preupdate_dependent : DB → Instance → Model → pk_map;
  _querysets_for_update : DB → Model → Target → bool → pk_map;
  update_dependent :
    Target → option Model → option (gset string) → option OldArg →
    bool → DB → DB;
  bulk_updater : Target → gset string → DB → DB
}.

(** ** Module state: the four buffers, the database, the calls made *)
Record State := {
  db : DB;
  DELETES : gmap (string * Z) pk_map;
  M2M_REMOVE : gmap (string * Z) pk_map;
  M2M_CLEAR : gmap (string * Z) pk_map;
  UPDATE_OLD : gmap (string * Z) pk_map;
  calls : list Call
}.

Inductive Outcome :=
  | Returns (st : State)
  | Raises (e : Exn) (st : State).

Definition set_DELETES (b : gmap (string * Z) pk_map) (st : State) :=
  {| db := db st; DELETES := b; M2M_REMOVE := M2M_REMOVE st;
     M2M_CLEAR := M2M_CLEAR st; UPDATE_OLD := UPDATE_OLD st;
     calls := calls st |}.

Definition set_M2M_REMOVE (b : gmap (string * Z) pk_map) (st : State) :=
  {| db := db st; DELETES := DELETES st; M2M_REMOVE := b;
     M2M_CLEAR := M2M_CLEAR st; UPDATE_OLD := UPDATE_OLD st;
     calls := calls st |}.

Definition set_M2M_CLEAR (b : gmap (string * Z) pk_map) (st : State) :=
  {| db := db st; DELETES := DELETES st; M2M_REMOVE := M2M_REMOVE st;
     M2M_CLEAR := b; UPDATE_OLD := UPDATE_OLD st;
     calls := calls st |}.

Definition set_UPDATE_OLD (b : gmap (string * Z) pk_map) (st : State) :=
  {| db := db st; DELETES := DELETES st; M2M_REMOVE := M2M_REMOVE st;
     M2M_CLEAR := M2M_CLEAR st; UPDATE_OLD := b;
     calls := calls st |}.

(** A query: the call is recorded, the database is left as it is. *)
Definition query (c : Call) (st : State) : State :=
  {| db := db st; DELETES := DELETES st; M2M_REMOVE := M2M_REMOVE st;
     M2M_CLEAR := M2M_CLEAR st; UPDATE_OLD := UPDATE_OLD st;
     calls := calls st ++ [c] |}.

(** A recomputation: the call is recorded and its writes are applied. *)
Definition recompute (c : Call) (write : DB → DB) (st : State) : State :=
  {| db := write (db st); DELETES := DELETES st;
     M2M_REMOVE := M2M_REMOVE st; M2M_CLEAR := M2M_CLEAR st;
     UPDATE_OLD := UPDATE_OLD st; calls := calls st ++ [c] |}.

Variable active_resolver : Resolver.

(** The order in which [.items()] lists a captured map. *)
Variable dict_order : DictOrder.

(** [model._meta.get_fields()] *)
Variable get_fields : Model → list Field.

(** Whether [getattr(instance, name).all()] succeeds on the instances of a
    model: whether they carry a related manager under the attribute [name].
    It fails with [AttributeError] otherwise. *)
Variable has_manager : Model → string → bool.

(** [active_resolver.update_dependent(...)] *)
Definition call_update_dependent (t : Target) (model : option Model)
    (update_fields : option (gset string)) (old : option OldArg)
    (update_local : bool) : State → State :=
  recompute
    (Call_update_dependent t model update_fields old update_local)
    (update_dependent active_resolver t model update_fields old
       update_local).

(** [active_resolver.bulk_updater(qs, fields)] *)
Definition call_bulk_updater (qs : Target) (fields : gset string)
    : State → State :=
  recompute (Call_bulk_updater qs fields)
    (bulk_updater active_resolver qs fields).

(** [get_old_handler(sender, instance, **kwargs)] *)
Definition get_old_handler (sender : Model) (instance : Instance)
    (kwargs : SaveKwargs) (st : State) : State :=
  if truthy_flag (raw kwargs) then st
  else if inst_adding instance then st
  else
    match _fk_map active_resolver !! sender with
    | None => st
    | Some contributing_fks =>
      if bool_decide (contributing_fks = ∅) then st
      else
        let candidates :=
          if truthy_fields (update_fields kwargs)
          then contributing_fks ∩ default ∅ (update_fields kwargs)
          else contributing_fks in
        if bool_decide (candidates = ∅) then st
        else
          let data :=
            preupdate_dependent active_resolver (db st) instance sender in
          let st := query (Call_preupdate_dependent instance sender) st in
          if bool_decide (data ≠ ∅)
          then set_UPDATE_OLD (<[inst_key instance := data]> (UPDATE_OLD st)) st
          else st
    end.

(** [postsave_handler(sender, instance, **kwargs)] *)
Definition postsave_handler (sender : Model) (instance : Instance)
    (kwargs : SaveKwargs) (st : State) : State :=
  if negb (truthy_flag (raw kwargs)) then
    let old :=
      match UPDATE_OLD st !! inst_key instance with
      | Some data => OldMap data
      | None => OldEmptyList
      end in
    let st := set_UPDATE_OLD (delete (inst_key instance) (UPDATE_OLD st)) st in
    call_update_dependent (TInstance instance) (Some sender)
      (update_fields kwargs) (Some old) false st
  else st.

(** [predelete_handler(sender, instance, **_)] *)
Definition predelete_handler (sender : Model) (instance : Instance)
    (st : State) : State :=
  let data :=
    _querysets_for_update active_resolver (db st) sender
      (TInstance instance) true in
  let st :=
    query (Call_querysets_for_update sender (TInstance instance) true) st in
  if bool_decide (data ≠ ∅)
  then set_DELETES (<[inst_key instance := data]> (DELETES st)) st
  else st.

(** The loop shared by the three draining branches:
    [[
    for model, data in updates.items():
        pks, fields = data
        qs = model.objects.filter(pk__in=pks)
        active_resolver.bulk_updater(qs, fields)
    ]]
    The items come in the order in which the dict lists them
    ([dict_order]). *)
Definition bulk_update_all (updates : pk_map) (st : State) : State :=
  fold_left
    (λ st (item : Model * entry),
       let '(model, (pks, fields)) := item in
       call_bulk_updater (TFilter model pks) fields st)
    (items_of dict_order updates) st.

(** [postdelete_handler(sender, instance, **kwargs)] *)
Definition postdelete_handler (sender : Model) (instance : Instance)
    (st : State) : State :=
  let updates := default ∅ (DELETES st !! inst_key instance) in
  let st := set_DELETES (delete (inst_key instance) (DELETES st)) st in
  bulk_update_all updates st.

(** The search loops of the [post_add] branch:
    [[
    for f in m2m_fields:
        through = ...
        if through == sender:
            active_resolver.update_dependent(t, update_fields=[f.name],
                                             update_local=False)
            break
    ]] *)
Fixpoint update_first_through (sender : Model) (t : Target)
    (m2m_fields : list Field) (st : State) : State :=
  match m2m_fields with
  | [] => st
  | f :: rest =>
    if bool_decide (through f = sender)
    then call_update_dependent t None (Some {[ f_name f ]}) None false st
    else update_first_through sender t rest st
  end.

(** [m2m_handler(sender, instance, **kwargs)] *)
Definition m2m_handler (sender : Model) (instance : Instance)
    (kwargs : M2MKwargs) (st : State) : Outcome :=
  let action := action kwargs in
  let model := model kwargs in
  if bool_decide (action = Some "post_add") then
    let pks := pk_set kwargs in
    let m2m_fields := filter many_to_many (get_fields (inst_type instance)) in
    let st :=
      update_first_through sender (TInstance instance) m2m_fields st in
    let m2m_fields2 := filter many_to_many (get_fields model) in
    Returns
      (update_first_through sender (TFilter model pks) m2m_fields2 st)
  else if bool_decide (action = Some "pre_remove") then
    let data :=
      _querysets_for_update active_resolver (db st) (inst_type instance)
        (TInstance instance) true in
    let st :=
      query (Call_querysets_for_update (inst_type instance)
               (TInstance instance) true) st in
    let pks := pk_set kwargs in
    let other :=
      _querysets_for_update active_resolver (db st) model
        (TFilter model pks) true in
    let st :=
      query (Call_querysets_for_update model (TFilter model pks) true) st in
    let data :=
      if bool_decide (other ≠ ∅) then merge_pk_maps data other else data in
    if bool_decide (data ≠ ∅)
    then Returns
           (set_M2M_REMOVE (<[inst_key instance := data]> (M2M_REMOVE st)) st)
    else Returns st
  else if bool_decide (action = Some "post_remove") then
    let updates := default ∅ (M2M_REMOVE st !! inst_key instance) in
    let st :=
      set_M2M_REMOVE (delete (inst_key instance) (M2M_REMOVE st)) st in
    Returns (bulk_update_all updates st)
  else if bool_decide (action = Some "pre_clear") then
    let data :=
      _querysets_for_update active_resolver (db st) (inst_type instance)
        (TInstance instance) true in
    let st :=
      query (Call_querysets_for_update (inst_type instance)
               (TInstance instance) true) st in
    let inst_model := inst_type instance in
    let accessor :=
      if reverse kwargs then
        match filter (is_rel_through sender) (get_fields inst_model) with
        | rel :: _ => Some (f_name rel)
        | [] => None
        end
      else
        match filter (is_rel_through sender) (get_fields model) with
        | field :: _ => Some (f_remote_name field)
        | [] => None
        end in
    match accessor with
    | None => Raises IndexError st
    | Some name =>
      if negb (has_manager inst_model name) then Raises AttributeError st
      else
      let other :=
        _querysets_for_update active_resolver (db st) model
          (TRelated instance name) true in
      let st :=
        query (Call_querysets_for_update model (TRelated instance name)
                 true) st in
      let data :=
        if bool_decide (other ≠ ∅) then merge_pk_maps data other
        else data in
      if bool_decide (data ≠ ∅)
      then Returns
             (set_M2M_CLEAR (<[inst_key instance := data]> (M2M_CLEAR st)) st)
      else Returns st
    end
  else if bool_decide (action = Some "post_clear") then
    let updates := default ∅ (M2M_CLEAR st !! inst_key instance) in
    let st :=
      set_M2M_CLEAR (delete (inst_key instance) (M2M_CLEAR st)) st in
    Returns (bulk_update_all updates st)
  else Returns st.

(** The calls a draining phase makes for a captured map. *)
Definition bulk_calls (updates : pk_map) : list Call :=
  (λ item : Model * entry,
     Call_bulk_updater (TFilter item.1 item.2.1) item.2.2) <$>
    items_of dict_order updates.

End handlers.

Arguments Resolver : clear implicits.
Arguments State : clear implicits.
Arguments Outcome : clear implicits.

(** The state a call leaves behind, whether it returned or raised. *)
Definition outcome_state {DB : Type} (o : Outcome DB) : State DB :=
  match o with
  | Returns st => st
  | Raises _ st => st
  end.


(** The declaration at which a search loop of the [post_add] branch stops:
    the first many-to-many field of [model] whose junction is [sender]. *)
Definition matching_field (get_fields : Model → list Field)
    (sender model : Model) : option Field :=
  head (filter (λ f, through f = sender)
          (filter many_to_many (get_fields model))).

(** The accessor through which the [pre_clear] branch reads the other side:
    the name of the first [ManyToManyRel] through [sender] found on the
    instance's model for a reverse event, the name of the remote field of the
    first one found on [model] otherwise. *)
Definition clear_accessor (get_fields : Model → list Field)
    (sender : Model) (instance : Instance) (kwargs : M2MKwargs)
    : option string :=
  if reverse kwargs then
    f_name <$>
      head (filter (is_rel_through sender) (get_fields (inst_type instance)))
  else
    f_remote_name <$>
      head (filter (is_rel_through sender) (get_fields (model kwargs))).

(** ** A small schema to run the handlers on

    Articles and tags linked many-to-many through [Article_tags];
    [Article.tagSummary] is computed from the tags of the article.  [Bar]
    has a foreign key [foo] that contributes to a computed field. *)
Module Example.

(** The database: the rows [(article, tag)] of the junction table. *)
Abbreviation DB := (gset (Z * Z)) (only parsing).

Definition articles_of (db : DB) (tags : gset Z) : gset Z :=
  set_map fst (filter (λ row : Z * Z, row.2 ∈ tags) db).

Definition tags_of (db : DB) (article : Z) : gset Z :=
  set_map snd (filter (λ row : Z * Z, row.1 = article) db).

Definition dependents (db : DB) (tags : gset Z) : pk_map :=
  if bool_decide (articles_of db tags = ∅) then ∅
  else {[ "Article" := (articles_of db tags, {[ "tagSummary" ]}) ]}.

Definition querysets (db : DB) (model : Model) (t : Target) (pk_list : bool)
    : pk_map :=
  match t with
  | TInstance i =>
      if bool_decide (inst_type i = "Tag")
      then dependents db {[ inst_pk i ]} else ∅
  | TFilter m pks =>
      if bool_decide (m = "Tag") then dependents db pks else ∅
  | TRelated i name =>
      if bool_decide (inst_type i = "Article")
      then dependents db (tags_of db (inst_pk i)) else ∅
  end.

Definition resolver : Resolver DB := {|
  _fk_map := {[ "Bar" := {[ "foo" ]} ]};
  preupdate_dependent := λ db i sender,
    if bool_decide (sender = "Bar")
    then {[ "Foo" := ({[ 1%Z ]}, {[ "bars" ]}) ]} else ∅;
  _querysets_for_update := querysets;
  update_dependent := λ _ _ _ _ _ db, db;
  bulk_updater := λ _ _ db, db
|}.

Definition get_fields (m : Model) : list Field :=
  if bool_decide (m = "Article") then
    [ {| f_name := "title"; f_class := OtherField;
         f_through := ""; f_remote_name := "" |};
      {| f_name := "tags"; f_class := ManyToManyField;
         f_through := "Article_tags"; f_remote_name := "article" |} ]
  else if bool_decide (m = "Tag") then
    [ {| f_name := "article"; f_class := ManyToManyRel;
         f_through := "Article_tags"; f_remote_name := "tags" |} ]
  else [].

(** A schema without any many-to-many declaration. *)
Definition no_fields (m : Model) : list Field := [].

(** The relation declared with a hidden reverse accessor
    ([related_name='+']): [get_fields()] of [Tag] does not list it. *)
Definition hidden_reverse (m : Model) : list Field :=
  if bool_decide (m = "Article") then get_fields "Article" else [].

(** The relation declared with [related_name='articles']: the reverse
    relation is named after its accessor. *)
Definition named_reverse (m : Model) : list Field :=
  if bool_decide (m = "Article") then
    [ {| f_name := "tags"; f_class := ManyToManyField;
         f_through := "Article_tags"; f_remote_name := "articles" |} ]
  else if bool_decide (m = "Tag") then
    [ {| f_name := "articles"; f_class := ManyToManyRel;
         f_through := "Article_tags"; f_remote_name := "tags" |} ]
  else [].

(** The related managers of the instances.  With Django's default naming
    ([get_fields]) an article reaches its tags as [tags] and a tag its
    articles as [article_set]: a tag has no attribute [article], the name of
    the reverse relation.  With a hidden reverse accessor a tag has no
    manager for the relation, with [related_name='articles'] it has it under
    that name. *)
Definition has_manager (m : Model) (name : string) : bool :=
  bool_decide (m = "Article" ∧ name = "tags") ||
  bool_decide (m = "Tag" ∧ name = "article_set").

Definition hidden_manager (m : Model) (name : string) : bool :=
  bool_decide (m = "Article" ∧ name = "tags").

Definition named_manager (m : Model) (name : string) : bool :=
  bool_decide (m = "Article" ∧ name = "tags") ||
  bool_decide (m = "Tag" ∧ name = "articles").

Definition no_manager (m : Model) (name : string) : bool := false.

(** An order of listing for the examples. *)
Definition order : DictOrder :=
  {| items_of := map_to_list; items_of_perm := λ mm, Permutation_refl _ |}.




Definition article (n : Z) : Instance :=
  {| inst_type := "Article"; inst_pk := n; inst_adding := false |}.

Definition tag (n : Z) : Instance :=
  {| inst_type := "Tag"; inst_pk := n; inst_adding := false |}.

Definition bar (n : Z) : Instance :=
  {| inst_type := "Bar"; inst_pk := n; inst_adding := false |}.

(** Articles 1 and 2 carry tag 7, article 2 also carries tag 8. *)
Definition links : DB := {[ (1, 7); (2, 7); (2, 8) ]}%Z.

Definition start (db : DB) : State DB :=
  {| db := db; DELETES := ∅; M2M_REMOVE := ∅; M2M_CLEAR := ∅;
     UPDATE_OLD := ∅; calls := [] |}.

(** The store executes a mutation: the database changes, the module state
    does not. *)
Definition mutate (db' : DB) (st : State DB) : State DB :=
  {| db := db'; DELETES := DELETES st; M2M_REMOVE := M2M_REMOVE st;
     M2M_CLEAR := M2M_CLEAR st; UPDATE_OLD := UPDATE_OLD st;
     calls := calls st |}.

End Example.

(** ** [merge_pk_maps] on objects

    [merge_pk_maps] updates its first argument in place.  To speak about what
    it shares and what it leaves alone, the dict, the two-element lists it
    holds and the sets these refer to are objects of a store, addressed by
    their identity. *)
Module Store.

Inductive object :=
  | OSet (s : gset (Z + string))
  | OList (l : list positive)
  | ODict (d : list (string * positive)).

Abbreviation heap := (gmap positive object) (only parsing).

(** A new object gets an identity no live object has. *)
Definition alloc (o : object) (h : heap) : positive * heap :=
  let l := fresh (dom h) in (l, <[l := o]> h).

(** [d[model]] on the items of a dict, in insertion order. *)
Fixpoint dict_get (d : list (string * positive)) (model : Model)
    : option positive :=
  match d with
  | [] => None
  | (k, v) :: d => if decide (k = model) then Some v else dict_get d model
  end.

(** [a, b = data]: the object must be a sequence of exactly two items. *)
Definition unpack2 (data : positive) (h : heap) : option (positive * positive) :=
  match h !! data with
  | Some (OList [a; b]) => Some (a, b)
  | _ => None
  end.

(** [mm.setdefault(model, dflt)] *)
Definition setdefault (mm : positive) (model : Model) (dflt : positive)
    (h : heap) : option (positive * heap) :=
  match h !! mm with
  | Some (ODict d) =>
    match dict_get d model with
    | Some cell => Some (cell, h)
    | None => Some (dflt, <[mm := ODict (d ++ [(model, dflt)])]> h)
    end
  | _ => None
  end.

(** [a.update(b)] for two sets. *)
Definition set_update (a b : positive) (h : heap) : option heap :=
  match h !! a, h !! b with
  | Some (OSet sa), Some (OSet sb) => Some (<[a := OSet (sa ∪ sb)]> h)
  | _, _ => None
  end.

(** The body of the loop.  The default [[set(), set()]] is built before
    [setdefault] is called, whether it is needed or not. *)
Definition merge_step (mm1 : positive) (item : string * positive) (h : heap)
    : option heap :=
  let '(model, data) := item in
  match unpack2 data h with
  | None => None
  | Some (m2_pks, m2_fields) =>
    let '(s1, h) := alloc (OSet ∅) h in
    let '(s2, h) := alloc (OSet ∅) h in
    let '(dflt, h) := alloc (OList [s1; s2]) h in
    match setdefault mm1 model dflt h with
    | None => None
    | Some (cell, h) =>
      match unpack2 cell h with
      | None => None
      | Some (m1_pks, m1_fields) =>
        match set_update m1_pks m2_pks h with
        | None => None
        | Some h => set_update m1_fields m2_fields h
        end
      end
    end
  end.

Fixpoint for_items (mm1 : positive) (its : list (string * positive))
    (h : heap) : option heap :=
  match its with
  | [] => Some h
  | item :: its =>
    match merge_step mm1 item h with
    | Some h => for_items mm1 its h
    | None => None
    end
  end.

(** [merge_pk_maps(mm1, mm2)]: the object returned and the store after the
    call; [None] when the call raises. *)
Definition merge_pk_maps (mm1 mm2 : positive) (h : heap)
    : option (positive * heap) :=
  match h !! mm2 with
  | Some (ODict its) =>
    match for_items mm1 its h with
    | Some h => Some (mm1, h)
    | None => None
    end
  | _ => None
  end.

(** The objects a dependent-update map is made of: the dict, its lists and
    the sets these hold. *)
Definition cell_refs (h : heap) (c : positive) : gset positive :=
  match h !! c with
  | Some (OList l) => list_to_set l
  | _ => ∅
  end.

Definition footprint (h : heap) (mm : positive) : gset positive :=
  match h !! mm with
  | Some (ODict d) =>
      {[ mm ]} ∪ ⋃ ((λ kv : string * positive,
                       {[ kv.2 ]} ∪ cell_refs h kv.2) <$> d)
  | _ => {[ mm ]}
  end.

(** [mm] is a dependent-update map: a dict whose values are lists of two
    sets. *)
Definition is_set (h : heap) (l : positive) : bool :=
  match h !! l with
  | Some (OSet _) => true
  | _ => false
  end.

Definition is_cell (h : heap) (c : positive) : bool :=
  match h !! c with
  | Some (OList [a; b]) => is_set h a && is_set h b
  | _ => false
  end.

Definition is_pk_map (h : heap) (mm : positive) : bool :=
  match h !! mm with
  | Some (ODict d) =>
      forallb (λ kv : string * positive, is_cell h kv.2) d &&
      bool_decide (NoDup d.*1)
  | _ => false
  end.

(** An object up to the contents of a set: what the shape of a map, but
    not its value, depends on. *)
Definition shape (o : object) : object :=
  match o with
  | OSet _ => OSet ∅
  | _ => o
  end.

(** What a run of the loop keeps true.  [h0] is the store at the call and
    [F] the objects of the first map then: the first map is still a
    dependent-update map, no object has been freed, an object that was
    there and is not one of [F] is as it was, and the first map is made of
    objects of [F] and of new objects only. *)
Definition keeps (h0 : heap) (F : gset positive) (mm1 : positive)
    (h : heap) : Prop :=
  is_pk_map h mm1 = true ∧
  dom h0 ⊆ dom h ∧
  (∀ l, l ∈ dom h0 → l ∉ F → h !! l = h0 !! l) ∧
  (∀ l, l ∈ footprint h mm1 → l ∈ F ∨ l ∉ dom h0).

(** The value of the map at [mm]: per model, the contents of its two sets. *)
Definition read_set (h : heap) (l : positive) : gset (Z + string) :=
  match h !! l with
  | Some (OSet s) => s
  | _ => ∅
  end.

Definition read_cell (h : heap) (c : positive)
    : gset (Z + string) * gset (Z + string) :=
  match h !! c with
  | Some (OList [a; b]) => (read_set h a, read_set h b)
  | _ => (∅, ∅)
  end.

Definition read_map (h : heap) (mm : positive)
    : list (string * (gset (Z + string) * gset (Z + string))) :=
  match h !! mm with
  | Some (ODict d) => (λ kv : string * positive, (kv.1, read_cell h kv.2)) <$> d
  | _ => []
  end.

(** [mm.get(model)], by value: the contents of the two sets stored under
    a model. *)
Definition read_entry (h : gmap positive object) (mm : positive) (model : Model)
    : option (gset (Z + string) * gset (Z + string)) :=
  match h !! mm with
  | Some (ODict d) => read_cell h <$> dict_get d model
  | _ => None
  end.

(** The set objects a map refers to, in the order of its items. *)
Definition cell_sets (h : gmap positive object) (c : positive) : list positive :=
  match h !! c with
  | Some (OList l) => l
  | _ => []
  end.

Definition sets_of (h : gmap positive object) (mm : positive) : list positive :=
  match h !! mm with
  | Some (ODict d) => d ≫= (λ kv : string * positive, cell_sets h kv.2)
  | _ => []
  end.

(** [list(mm.keys())] *)
Definition dict_keys (h : gmap positive object) (mm : positive) : list Model :=
  match h !! mm with
  | Some (ODict d) => d.*1
  | _ => []
  end.

(** The value of a map as a dependent-update map: primary keys on the
    left, field names on the right. *)
Definition entry_of (e : gset (Z + string) * gset (Z + string)) : entry :=
  (set_omap (λ x : Z + string, match x with inl z => Some z | inr _ => None end)
     e.1,
   set_omap (λ x : Z + string, match x with inr s => Some s | inl _ => None end)
     e.2).

Definition pk_map_of (h : gmap positive object) (mm : positive) : pk_map :=
  match h !! mm with
  | Some (ODict d) =>
      list_to_map
        ((λ kv : string * positive, (kv.1, entry_of (read_cell h kv.2))) <$> d)
  | _ => ∅
  end.

(** [mm1 = {"A": [s, f1]}] and [mm2 = {"A": [t, f2], "B": [s, f3]}] share
    the set [s]. *)
Definition shared : heap :=
  {[ 1%positive := ODict [("A", 3%positive)];
     2%positive := ODict [("A", 4%positive); ("B", 5%positive)];
     3%positive := OList [6%positive; 7%positive];
     4%positive := OList [8%positive; 9%positive];
     5%positive := OList [6%positive; 10%positive];
     6%positive := OSet {[ inl 1%Z ]};
     7%positive := OSet {[ inr "f1" ]};
     8%positive := OSet {[ inl 2%Z ]};
     9%positive := OSet {[ inr "f2" ]};
     10%positive := OSet {[ inr "f3" ]} ]}.

(** The same two maps built from separate objects. *)
Definition separate : heap :=
  {[ 1%positive := ODict [("A", 3%positive)];
     2%positive := ODict [("A", 4%positive); ("B", 5%positive)];
     3%positive := OList [6%positive; 7%positive];
     4%positive := OList [8%positive; 9%positive];
     5%positive := OList [11%positive; 10%positive];
     6%positive := OSet {[ inl 1%Z ]};
     7%positive := OSet {[ inr "f1" ]};
     8%positive := OSet {[ inl 2%Z ]};
     9%positive := OSet {[ inr "f2" ]};
     10%positive := OSet {[ inr "f3" ]};
     11%positive := OSet {[ inl 1%Z ]} ]}.

End Store.

(** * Properties *)

Section merge_facts.

Implicit Types mm : pk_map.

Lemma merge_step_lookup mm model e m :
  merge_step mm (model, e) !! m =
    if decide (model = m)
    then Some (entry_union (default (∅, ∅) (mm !! model)) e)
    else mm !! m.
Proof.
  destruct e as [p f]. unfold merge_step, setdefault, entry_union.
  destruct (mm !! model) as [[p1 f1]|] eqn:E; simpl.
  - rewrite lookup_insert. by case_decide.
  - rewrite lookup_insert. case_decide; [done|].
    by rewrite lookup_insert_ne.
Qed.

Lemma fold_merge_step_lookup (l : list (Model * entry)) mm m :
  NoDup l.*1 →
  fold_left merge_step l mm !! m =
    union_with (λ a b, Some (entry_union a b))
      (mm !! m) ((list_to_map l : pk_map) !! m).
Proof.
  revert mm. induction l as [|[model e] l IH]; intros mm Hnd.
  - simpl. rewrite lookup_empty. by destruct (mm !! m).
  - rewrite fmap_cons in Hnd. apply NoDup_cons in Hnd as [Hnot Hnd].
    cbn [fold_left list_to_map foldr fst snd curry] in *.
    rewrite IH by done. rewrite merge_step_lookup.
    rewrite lookup_insert. case_decide as Heq.
    + subst m.
      assert ((list_to_map l : pk_map) !! model = None) as ->
          by by apply not_elem_of_list_to_map_1.
      destruct (mm !! model); simpl; [done|].
      destruct e as [p f]. unfold entry_union; simpl.
      by rewrite !(left_id_L ∅ (∪)).
    + done.
Qed.

Lemma merge_pk_maps_lookup mm1 mm2 m :
  merge_pk_maps mm1 mm2 !! m =
    union_with (λ a b, Some (entry_union a b)) (mm1 !! m) (mm2 !! m).
Proof.
  unfold merge_pk_maps.
  rewrite fold_merge_step_lookup by apply NoDup_fst_map_to_list.
  by rewrite list_to_map_to_list.
Qed.

End merge_facts.

Section merge_algebra.

Implicit Types A B C : pk_map.

Lemma entry_union_comm (a b : entry) : entry_union a b = entry_union b a.
Proof. unfold entry_union. f_equal; apply (comm_L (∪)). Qed.

Lemma entry_union_assoc (a b c : entry) :
  entry_union (entry_union a b) c = entry_union a (entry_union b c).
Proof. unfold entry_union; simpl. f_equal; by rewrite (assoc_L (∪)). Qed.

Lemma merge_pk_maps_comm A B : merge_pk_maps A B = merge_pk_maps B A.
Proof.
  apply map_eq; intros m. rewrite !merge_pk_maps_lookup.
  destruct (A !! m), (B !! m); simpl; try done.
  by rewrite entry_union_comm.
Qed.

Lemma merge_pk_maps_assoc A B C :
  merge_pk_maps (merge_pk_maps A B) C = merge_pk_maps A (merge_pk_maps B C).
Proof.
  apply map_eq; intros m. rewrite !merge_pk_maps_lookup.
  destruct (A !! m), (B !! m), (C !! m); simpl; try done.
  by rewrite entry_union_assoc.
Qed.

Lemma merge_pk_maps_empty_r A : merge_pk_maps A ∅ = A.
Proof.
  apply map_eq; intros m. rewrite merge_pk_maps_lookup, lookup_empty.
  by destruct (A !! m).
Qed.



Lemma merge_pk_maps_is_empty A B :
  merge_pk_maps A B = ∅ ↔ A = ∅ ∧ B = ∅.
Proof.
  split.
  - intros H. split; apply map_eq; intros m; rewrite lookup_empty;
      assert (merge_pk_maps A B !! m = None) as Hm
        by (by rewrite H, lookup_empty);
      rewrite merge_pk_maps_lookup in Hm;
      by destruct (A !! m), (B !! m).
  - intros [-> ->]. apply merge_pk_maps_empty_r.
Qed.

End merge_algebra.


(** C9. A dependent-update map lists every model at most once, also after
    a merge, and a merge only grows what the first map holds: a model of the
    first map is still a key afterwards, and its primary-key set and its
    field-name set are included in the ones it has after the merge. *)
Theorem merge_pk_maps_monotone (A B : pk_map) :
  NoDup (keys A) ∧ NoDup (keys (merge_pk_maps A B)) ∧
  ∀ (model : Model) (pks : gset Z) (fields : gset string),
    A !! model = Some (pks, fields) →
    ∃ pks' fields',
      merge_pk_maps A B !! model = Some (pks', fields') ∧
      pks ⊆ pks' ∧ fields ⊆ fields'.
Proof.
  split_and!; try apply NoDup_fst_map_to_list.
  intros m pks fields HA. rewrite merge_pk_maps_lookup, HA.
  destruct (B !! m) as [[p2 f2]|]; simpl.
  - exists (pks ∪ p2), (fields ∪ f2). split; [done|]. set_solver.
  - by exists pks, fields.
Qed.

Lemma merge_pk_maps_monotone_witness :
  ∃ pks' fields',
    merge_pk_maps {[ "Order" := ({[ 1%Z ]}, {[ "total" ]}) ]}
                  {[ "Order" := ({[ 2%Z ]}, {[ "total"; "tax" ]}) ]}
      !! "Order" = Some (pks', fields') ∧
    ({[ 1%Z ]} : gset Z) ⊆ pks' ∧ ({[ "total" ]} : gset string) ⊆ fields'.
Proof.
  apply (merge_pk_maps_monotone
           {[ "Order" := ({[ 1%Z ]}, {[ "total" ]}) ]}
           {[ "Order" := ({[ 2%Z ]}, {[ "total"; "tax" ]}) ]}).
  vm_compute. reflexivity.
Defined.

(** ** The handlers *)

Section handler_facts.

Context {DB : Type} (R : Resolver DB) (order : DictOrder).

Implicit Types (st : State DB) (instance : Instance) (updates : pk_map).

Lemma fold_bulk_calls (l : list (Model * entry)) st :
  let st' :=
    fold_left
      (λ st (item : Model * entry),
         let '(model, (pks, fields)) := item in
         call_bulk_updater R (TFilter model pks) fields st) l st in
  calls st' =
    calls st ++
    ((λ item : Model * entry,
        Call_bulk_updater (TFilter item.1 item.2.1) item.2.2) <$> l) ∧
  DELETES st' = DELETES st ∧ M2M_REMOVE st' = M2M_REMOVE st ∧
  M2M_CLEAR st' = M2M_CLEAR st ∧ UPDATE_OLD st' = UPDATE_OLD st.
Proof.
  revert st. induction l as [|[m [pks fields]] l IH]; intros st; simpl.
  - by rewrite app_nil_r.
  - destruct (IH (call_bulk_updater R (TFilter m pks) fields st))
      as (-> & -> & -> & -> & ->).
    simpl. by rewrite <- app_assoc.
Qed.

Lemma bulk_update_all_calls updates st :
  calls (bulk_update_all R order updates st) =
    calls st ++ bulk_calls order updates.
Proof. apply fold_bulk_calls. Qed.

Lemma bulk_update_all_buffers updates st :
  DELETES (bulk_update_all R order updates st) = DELETES st ∧
  M2M_REMOVE (bulk_update_all R order updates st) = M2M_REMOVE st ∧
  M2M_CLEAR (bulk_update_all R order updates st) = M2M_CLEAR st ∧
  UPDATE_OLD (bulk_update_all R order updates st) = UPDATE_OLD st.
Proof. apply fold_bulk_calls. Qed.

Lemma items_of_empty : items_of order ∅ = [].
Proof.
  apply Permutation_nil_r. rewrite items_of_perm.
  by rewrite map_to_list_empty.
Qed.

Lemma bulk_update_all_empty st : bulk_update_all R order ∅ st = st.
Proof. unfold bulk_update_all. by rewrite items_of_empty. Qed.

Lemma bulk_calls_empty : bulk_calls order ∅ = [].
Proof. unfold bulk_calls. by rewrite items_of_empty. Qed.

(** Every call of a draining phase is a recomputation of the records of
    one model of the captured map, with the keys and fields stored there. *)
Lemma elem_of_bulk_calls updates c :
  c ∈ bulk_calls order updates ↔
  ∃ m pks fields,
    updates !! m = Some (pks, fields) ∧
    c = Call_bulk_updater (TFilter m pks) fields.
Proof.
  unfold bulk_calls. rewrite list_elem_of_fmap. split.
  - intros ([m [pks fields]] & -> & Hin).
    rewrite items_of_perm in Hin.
    apply elem_of_map_to_list in Hin. by exists m, pks, fields.
  - intros (m & pks & fields & Hm & ->).
    exists (m, (pks, fields)). split; [done|].
    rewrite items_of_perm. by apply elem_of_map_to_list.
Qed.

Lemma bulk_calls_length updates :
  length (bulk_calls order updates) = size updates.
Proof.
  unfold bulk_calls.
  by rewrite length_fmap, items_of_perm, length_map_to_list.
Qed.

Lemma bulk_calls_NoDup updates : NoDup (bulk_calls order updates).
Proof.
  unfold bulk_calls. apply NoDup_fmap_2_strong.
  - intros [m1 [p1 f1]] [m2 [p2 f2]] _ _ [= -> -> ->]. done.
  - rewrite items_of_perm. apply NoDup_map_to_list.
Qed.

(** The calls of a draining phase, whatever their order: one for each
    model of the captured map, on the keys and fields stored there. *)
Lemma bulk_calls_once_per_model updates :
  NoDup (bulk_calls order updates) ∧
  length (bulk_calls order updates) = size updates ∧
  ∀ c, c ∈ bulk_calls order updates ↔
       ∃ m pks fields,
         updates !! m = Some (pks, fields) ∧
         c = Call_bulk_updater (TFilter m pks) fields.
Proof.
  split; [apply bulk_calls_NoDup|]. split; [apply bulk_calls_length|].
  apply elem_of_bulk_calls.
Qed.

Lemma predelete_handler_calls sender instance st :
  calls (predelete_handler R sender instance st) =
    calls st ++ [Call_querysets_for_update sender (TInstance instance) true].
Proof. unfold predelete_handler. by case_bool_decide. Qed.

Lemma predelete_handler_buffer sender instance st :
  let data :=
    _querysets_for_update R (db st) sender (TInstance instance) true in
  DELETES (predelete_handler R sender instance st) =
    if decide (data = ∅) then DELETES st
    else <[inst_key instance := data]> (DELETES st).
Proof.
  unfold predelete_handler. simpl.
  case_bool_decide; case_decide; done.
Qed.

Lemma postdelete_handler_calls sender instance st :
  calls (postdelete_handler R order sender instance st) =
    calls st ++
    bulk_calls order (default ∅ (DELETES st !! inst_key instance)).
Proof. unfold postdelete_handler. by rewrite bulk_update_all_calls. Qed.

Lemma postdelete_handler_buffer sender instance st :
  DELETES (postdelete_handler R order sender instance st) =
    delete (inst_key instance) (DELETES st).
Proof.
  unfold postdelete_handler.
  by destruct (bulk_update_all_buffers
                 (default ∅ (DELETES st !! inst_key instance))
                 (set_DELETES (delete (inst_key instance) (DELETES st)) st))
    as (-> & _).
Qed.

End handler_facts.

(** C2. A [pre_save] or [post_save] signal that carries a true [raw] flag
    leaves the module state as it is: no buffer gains an entry and no call
    reaches the resolver. *)
Theorem raw_save_is_noop {DB : Type} (R : Resolver DB) (sender : Model)
    (instance : Instance) (kwargs : SaveKwargs) (st : State DB) :
  truthy_flag (raw kwargs) = true →
  get_old_handler R sender instance kwargs st = st ∧
  postsave_handler R sender instance kwargs st = st.
Proof.
  intros Hraw. unfold get_old_handler, postsave_handler.
  by rewrite Hraw.
Qed.

Lemma raw_save_is_noop_witness :
  get_old_handler Example.resolver "Bar" (Example.bar 1)
    {| raw := Some true; update_fields := None |}
    (Example.start Example.links) = Example.start Example.links ∧
  postsave_handler Example.resolver "Bar" (Example.bar 1)
    {| raw := Some true; update_fields := None |}
    (Example.start Example.links) = Example.start Example.links.
Proof.
  apply (raw_save_is_noop Example.resolver "Bar" (Example.bar 1)
           {| raw := Some true; update_fields := None |}
           (Example.start Example.links)).
  reflexivity.
Defined.

(** C1, as the code has it.  [predelete_handler] asks the resolver once,
    with [pk_list=True] and no restriction on the fields, for the dependents
    of the instance, and stores the answer in [DELETES] under the instance
    when it is not empty; an empty answer is not stored and leaves an earlier
    entry of the instance where it is.  Whatever the delete does to the
    database, [postdelete_handler] then takes the entry out of [DELETES] and
    calls [bulk_updater] once for each of its models, in some order, on the
    primary keys and fields stored there.  These are the keys captured before
    the delete when the answer was not empty or no entry was left over;
    otherwise they are those of the entry left over. *)
Theorem delete_recomputes_captured {DB : Type} (R : Resolver DB)
    (order : DictOrder) (sender : Model) (instance : Instance)
    (st : State DB) :
  let data :=
    _querysets_for_update R (db st) sender (TInstance instance) true in
  let st1 := predelete_handler R sender instance st in
  let captured :=
    if decide (data = ∅) then default ∅ (DELETES st !! inst_key instance)
    else data in
  calls st1 =
    calls st ++ [Call_querysets_for_update sender (TInstance instance) true] ∧
  db st1 = db st ∧
  DELETES st1 =
    (if decide (data = ∅) then DELETES st
     else <[inst_key instance := data]> (DELETES st)) ∧
  (data ≠ ∅ ∨ DELETES st !! inst_key instance = None → captured = data) ∧
  ∀ st2 : State DB,
    DELETES st2 !! inst_key instance = DELETES st1 !! inst_key instance →
    let st3 := postdelete_handler R order sender instance st2 in
    DELETES st3 = delete (inst_key instance) (DELETES st2) ∧
    DELETES st3 !! inst_key instance = None ∧
    ∃ cs,
      calls st3 = calls st2 ++ cs ∧
      NoDup cs ∧ length cs = size captured ∧
      ∀ c, c ∈ cs ↔
           ∃ m pks fields,
             captured !! m = Some (pks, fields) ∧
             c = Call_bulk_updater (TFilter m pks) fields.
Proof.
  intros data st1 captured. split_and!.
  - apply predelete_handler_calls.
  - unfold st1, predelete_handler. by case_bool_decide.
  - apply predelete_handler_buffer.
  - unfold captured. intros [Hne| ->]; case_decide; done.
  - intros st2 Hst2 st3. subst st1 st3.
    rewrite (predelete_handler_buffer R sender instance st) in Hst2.
    fold data in Hst2.
    assert (default ∅ (DELETES st2 !! inst_key instance) = captured) as Hd.
    { rewrite Hst2. unfold captured. case_decide; [done|].
      by rewrite lookup_insert_eq. }
    rewrite postdelete_handler_calls, postdelete_handler_buffer, Hd.
    split; [done|]. split; [apply lookup_delete_eq|].
    exists (bulk_calls order captured). split; [done|].
    apply bulk_calls_once_per_model.
Qed.

Lemma delete_recomputes_captured_witness :
  let st1 :=
    predelete_handler Example.resolver "Tag" (Example.tag 7)
      (Example.start Example.links) in
  let st2 := Example.mutate {[ (2, 8) ]}%Z st1 in
  ∃ cs,
    calls (postdelete_handler Example.resolver Example.order "Tag"
             (Example.tag 7) st2) = calls st2 ++ cs ∧
    length cs = 1 ∧
    Call_bulk_updater (TFilter "Article" {[ 1; 2 ]}%Z) {[ "tagSummary" ]}
      ∈ cs.
Proof.
  intros st1 st2.
  destruct (delete_recomputes_captured Example.resolver Example.order "Tag"
              (Example.tag 7) (Example.start Example.links))
    as (_ & _ & _ & _ & Hpost).
  destruct (Hpost st2 eq_refl) as (_ & _ & cs & Hcalls & _ & Hlen & Hin).
  exists cs. split; [exact Hcalls|]. split; [exact Hlen|].
  apply Hin. exists "Article", {[ 1; 2 ]}%Z, {[ "tagSummary" ]}.
  split; [reflexivity | reflexivity].
Defined.

(** C1 as stated fails when the answer is empty and an entry of the instance
    is left over from an earlier capture.  Here a first [pre_delete] of tag 9
    captures article 5 and its delete does not complete; the link is then
    dropped.  The [pre_delete] of the next attempt finds no dependents and
    stores nothing, the old entry stays, and [post_delete] recomputes
    article 5, which was not captured before this delete. *)
Lemma stale_delete_entry_is_recomputed :
  let earlier :=
    predelete_handler Example.resolver "Tag" (Example.tag 9)
      (Example.start {[ (5, 9) ]}%Z) in
  let st := Example.mutate Example.links earlier in
  let st1 := predelete_handler Example.resolver "Tag" (Example.tag 9) st in
  _querysets_for_update Example.resolver (db st) "Tag"
    (TInstance (Example.tag 9)) true = ∅ ∧
  DELETES st1 = DELETES st ∧
  calls (postdelete_handler Example.resolver Example.order "Tag"
           (Example.tag 9) st1) =
    calls st1 ++
    [Call_bulk_updater (TFilter "Article" {[ 5%Z ]}) {[ "tagSummary" ]}].
Proof. intros. split_and!; reflexivity. Qed.

(** ** The many-to-many handler, branch by branch *)

Section m2m_facts.

Context {DB : Type} (R : Resolver DB) (order : DictOrder)
  (get_fields : Model → list Field) (has_manager : Model → string → bool).

Implicit Types (st : State DB) (instance : Instance) (kwargs : M2MKwargs).

Ltac pick_action H :=
  unfold m2m_handler; rewrite H;
  repeat match goal with
    | |- context [bool_decide (Some ?a = Some ?b)] =>
        first
          [ rewrite (bool_decide_eq_true_2 (Some a = Some b)) by reflexivity
          | rewrite (bool_decide_eq_false_2 (Some a = Some b)) by discriminate ]
    end.

Lemma update_first_through_head sender t (fs : list Field) st :
  update_first_through R sender t fs st =
    match head (filter (λ f, through f = sender) fs) with
    | Some f => call_update_dependent R t None (Some {[ f_name f ]}) None false st
    | None => st
    end.
Proof.
  induction fs as [|f fs IH]; [done|].
  cbn [update_first_through]. rewrite filter_cons.
  case_bool_decide; case_decide; try done.
Qed.

Lemma m2m_handler_post_add sender instance kwargs st :
  action kwargs = Some "post_add" →
  m2m_handler R order get_fields has_manager sender instance kwargs st =
    Returns
      (update_first_through R sender
         (TFilter (model kwargs) (pk_set kwargs))
         (filter many_to_many (get_fields (model kwargs)))
         (update_first_through R sender (TInstance instance)
            (filter many_to_many (get_fields (inst_type instance))) st)).
Proof. intros H. by pick_action H. Qed.

Lemma m2m_handler_post_remove sender instance kwargs st :
  action kwargs = Some "post_remove" →
  m2m_handler R order get_fields has_manager sender instance kwargs st =
    Returns
      (bulk_update_all R order (default ∅ (M2M_REMOVE st !! inst_key instance))
         (set_M2M_REMOVE (delete (inst_key instance) (M2M_REMOVE st)) st)).
Proof. intros H. by pick_action H. Qed.

Lemma m2m_handler_post_clear sender instance kwargs st :
  action kwargs = Some "post_clear" →
  m2m_handler R order get_fields has_manager sender instance kwargs st =
    Returns
      (bulk_update_all R order (default ∅ (M2M_CLEAR st !! inst_key instance))
         (set_M2M_CLEAR (delete (inst_key instance) (M2M_CLEAR st)) st)).
Proof. intros H. by pick_action H. Qed.

(** [if other: merge_pk_maps(data, other)] is a merge in both cases. *)
Lemma guarded_merge (data other : pk_map) :
  (if bool_decide (other ≠ ∅) then merge_pk_maps data other else data) =
    merge_pk_maps data other.
Proof.
  case_bool_decide as H; [done|].
  by rewrite H, merge_pk_maps_empty_r.
Qed.

Lemma m2m_handler_pre_remove sender instance kwargs st :
  action kwargs = Some "pre_remove" →
  let q1 :=
    Call_querysets_for_update (inst_type instance) (TInstance instance)
      true in
  let q2 :=
    Call_querysets_for_update (model kwargs)
      (TFilter (model kwargs) (pk_set kwargs)) true in
  let merged :=
    merge_pk_maps
      (_querysets_for_update R (db st) (inst_type instance)
         (TInstance instance) true)
      (_querysets_for_update R (db st) (model kwargs)
         (TFilter (model kwargs) (pk_set kwargs)) true) in
  m2m_handler R order get_fields has_manager sender instance kwargs st =
    Returns
      (if decide (merged = ∅) then query q2 (query q1 st)
       else set_M2M_REMOVE (<[inst_key instance := merged]> (M2M_REMOVE st))
              (query q2 (query q1 st))).
Proof.
  intros H q1 q2 merged. pick_action H. cbn [db query].
  rewrite guarded_merge. fold merged.
  case_bool_decide; case_decide; done.
Qed.

Lemma m2m_handler_pre_clear sender instance kwargs st :
  action kwargs = Some "pre_clear" →
  let q1 :=
    Call_querysets_for_update (inst_type instance) (TInstance instance)
      true in
  m2m_handler R order get_fields has_manager sender instance kwargs st =
    match clear_accessor get_fields sender instance kwargs with
    | None => Raises IndexError (query q1 st)
    | Some name =>
      if has_manager (inst_type instance) name then
        let q2 :=
          Call_querysets_for_update (model kwargs) (TRelated instance name)
            true in
        let merged :=
          merge_pk_maps
            (_querysets_for_update R (db st) (inst_type instance)
               (TInstance instance) true)
            (_querysets_for_update R (db st) (model kwargs)
               (TRelated instance name) true) in
        Returns
          (if decide (merged = ∅) then query q2 (query q1 st)
           else set_M2M_CLEAR
                  (<[inst_key instance := merged]> (M2M_CLEAR st))
                  (query q2 (query q1 st)))
      else Raises AttributeError (query q1 st)
    end.
Proof.
  intros H q1. pick_action H. unfold clear_accessor.
  destruct (reverse kwargs).
  - destruct (filter (is_rel_through sender) (get_fields (inst_type instance)))
      as [|rel rest]; cbn [head fmap option_fmap option_map db query]; [done|].
    destruct (has_manager (inst_type instance) (f_name rel)); [|done].
    cbn [negb]. rewrite guarded_merge. case_bool_decide; case_decide; done.
  - destruct (filter (is_rel_through sender) (get_fields (model kwargs)))
      as [|field rest]; cbn [head fmap option_fmap option_map db query]; [done|].
    destruct (has_manager (inst_type instance) (f_remote_name field)); [|done].
    cbn [negb]. rewrite guarded_merge. case_bool_decide; case_decide; done.
Qed.

End m2m_facts.

Section handler_theorems.

Context {DB : Type} (R : Resolver DB) (order : DictOrder)
  (get_fields : Model → list Field) (has_manager : Model → string → bool).

Implicit Types (st : State DB) (instance : Instance).

Lemma matching_field_None_no_rel sender (m : Model) :
  matching_field get_fields sender m = None →
  filter (is_rel_through sender) (get_fields m) = [].
Proof.
  unfold matching_field. generalize (get_fields m) as fs.
  induction fs as [|f fs IH]; [done|].
  rewrite !filter_cons. unfold is_rel_through, many_to_many, through in *.
  destruct (f_class f); simpl.
  - by rewrite filter_cons; case_decide.
  - rewrite filter_cons. case_decide as Hthrough; [done|].
    intros Hrest. rewrite bool_decide_eq_false_2 by done. simpl. auto.
  - auto.
Qed.

Lemma get_old_handler_skip sender instance kwargs st :
  inst_adding instance = true ∨
  default ∅ (_fk_map R !! sender) = ∅ ∨
  (∃ uf, update_fields kwargs = Some uf ∧ uf ≠ ∅ ∧
         default ∅ (_fk_map R !! sender) ∩ uf = ∅) →
  get_old_handler R sender instance kwargs st = st.
Proof.
  unfold get_old_handler. intros Hskip.
  destruct (truthy_flag (raw kwargs)); [done|].
  destruct (inst_adding instance) eqn:Hadd; [done|].
  destruct (_fk_map R !! sender) as [fks|]; [|done]. simpl in Hskip.
  case_bool_decide as Hfks; [done|].
  destruct Hskip as [?|[?|(uf & Huf & Hne & Hcap)]]; try done.
  rewrite Huf. cbn [truthy_fields default].
  rewrite (bool_decide_eq_true_2 (uf ≠ ∅)) by done.
  by rewrite (bool_decide_eq_true_2 (fks ∩ uf = ∅)).
Qed.

Lemma get_old_handler_capture sender instance kwargs st :
  truthy_flag (raw kwargs) = false →
  inst_adding instance = false →
  default ∅ (_fk_map R !! sender) ≠ ∅ →
  (∀ uf, update_fields kwargs = Some uf →
         uf = ∅ ∨ default ∅ (_fk_map R !! sender) ∩ uf ≠ ∅) →
  let data := preupdate_dependent R (db st) instance sender in
  get_old_handler R sender instance kwargs st =
    (if decide (data = ∅) then query (Call_preupdate_dependent instance sender) st
     else set_UPDATE_OLD (<[inst_key instance := data]> (UPDATE_OLD st))
            (query (Call_preupdate_dependent instance sender) st)).
Proof.
  intros Hraw Hadd Hfks Huf data. unfold get_old_handler.
  rewrite Hraw, Hadd.
  destruct (_fk_map R !! sender) as [fks|]; [|done]. simpl in *.
  rewrite (bool_decide_eq_false_2 (fks = ∅)) by done.
  assert ((if truthy_fields (update_fields kwargs)
           then fks ∩ default ∅ (update_fields kwargs) else fks) ≠ ∅) as Hc.
  { destruct (update_fields kwargs) as [uf|]; simpl; [|done].
    case_bool_decide as Hne; [|done].
    destruct (Huf uf eq_refl); done. }
  rewrite (bool_decide_eq_false_2 _ Hc). fold data.
  case_bool_decide; case_decide; done.
Qed.

End handler_theorems.

(** C3, as the code has it.  For a [pre_save] signal without the raw flag:
    when the instance is new, or its model has no contributing foreign key, or
    [update_fields] is given, is not empty and shares no name with the
    contributing foreign keys, [get_old_handler] returns with the state as it
    was (no entry stored, no query issued).  In every other case, an empty
    [update_fields] counting as not given, it calls [preupdate_dependent] once
    and stores the answer in [UPDATE_OLD] under the instance when the answer
    is not empty. *)
Theorem get_old_handler_fast_path {DB : Type} (R : Resolver DB)
    (sender : Model) (instance : Instance) (kwargs : SaveKwargs)
    (st : State DB) :
  truthy_flag (raw kwargs) = false →
  let fks := default ∅ (_fk_map R !! sender) in
  let data := preupdate_dependent R (db st) instance sender in
  let st' := get_old_handler R sender instance kwargs st in
  (inst_adding instance = true ∨ fks = ∅ ∨
   (∃ uf, update_fields kwargs = Some uf ∧ uf ≠ ∅ ∧ fks ∩ uf = ∅) →
   st' = st) ∧
  (inst_adding instance = false → fks ≠ ∅ →
   (∀ uf, update_fields kwargs = Some uf → uf = ∅ ∨ fks ∩ uf ≠ ∅) →
   calls st' = calls st ++ [Call_preupdate_dependent instance sender] ∧
   UPDATE_OLD st' =
     (if decide (data = ∅) then UPDATE_OLD st
      else <[inst_key instance := data]> (UPDATE_OLD st)) ∧
   DELETES st' = DELETES st ∧ M2M_REMOVE st' = M2M_REMOVE st ∧
   M2M_CLEAR st' = M2M_CLEAR st ∧ db st' = db st).
Proof.
  intros Hraw fks data st'. split.
  - apply get_old_handler_skip.
  - intros Hadd Hfks Huf. subst st'.
    rewrite get_old_handler_capture by done. fold data.
    case_decide; done.
Qed.

Lemma get_old_handler_fast_path_witness :
  get_old_handler Example.resolver "Bar" (Example.bar 1)
    {| raw := None; update_fields := Some {[ "name" ]} |}
    (Example.start Example.links) = Example.start Example.links.
Proof.
  apply (get_old_handler_fast_path Example.resolver "Bar" (Example.bar 1)
           {| raw := None; update_fields := Some {[ "name" ]} |}
           (Example.start Example.links)).
  - reflexivity.
  - right; right. exists {[ "name" ]}. split; [reflexivity|].
    split; [apply (bool_decide_unpack _) | ]; vm_compute; [exact I | reflexivity].
Defined.

(** C3 as stated fails on an [update_fields] that is given but empty: its
    intersection with the contributing foreign keys is empty, yet the handler
    takes it for absent, queries the resolver and fills the buffer. *)
Lemma empty_update_fields_still_queries :
  let kwargs := {| raw := None; update_fields := Some ∅ |} in
  let st := Example.start Example.links in
  let st' := get_old_handler Example.resolver "Bar" (Example.bar 1) kwargs st in
  _fk_map Example.resolver !! "Bar" = Some {[ "foo" ]} ∧
  ({[ "foo" ]} : gset string) ∩ ∅ = ∅ ∧
  calls st = [] ∧
  calls st' = [Call_preupdate_dependent (Example.bar 1) "Bar"] ∧
  UPDATE_OLD st' !! ("Bar", 1%Z) =
    Some {[ "Foo" := ({[ 1%Z ]}, {[ "bars" ]}) ]}.
Proof. intros. split_and!; reflexivity. Qed.

(** C8, as the code has it.  [postdelete_handler] and the [post_remove]
    and [post_clear] branches take the stored map of the instance, or [{}]
    when there is none, delete the entry and recompute once per model of
    that map, in some order, which for a missing entry is no call at all.
    [postsave_handler] does the like when the signal is not raw: it passes
    the stored map, or [[]] when there is none, as [old] and deletes the
    entry.  After each of these the buffer has no entry for the instance.  A
    raw [post_save] does nothing: an entry of the instance stays. *)
Theorem post_phases_pop_entry {DB : Type} (R : Resolver DB)
    (order : DictOrder) (get_fields : Model → list Field)
    (has_manager : Model → string → bool) (sender : Model)
    (instance : Instance) (st : State DB) :
  let once_per_model (updates : pk_map) (cs : list Call) :=
    NoDup cs ∧ length cs = size updates ∧
    ∀ c, c ∈ cs ↔
         ∃ m pks fields,
           updates !! m = Some (pks, fields) ∧
           c = Call_bulk_updater (TFilter m pks) fields in
  (∀ kwargs : SaveKwargs,
     let st' := postsave_handler R sender instance kwargs st in
     (truthy_flag (raw kwargs) = true → st' = st) ∧
     (truthy_flag (raw kwargs) = false →
      UPDATE_OLD st' = delete (inst_key instance) (UPDATE_OLD st) ∧
      UPDATE_OLD st' !! inst_key instance = None ∧
      calls st' =
        calls st ++
        [Call_update_dependent (TInstance instance) (Some sender)
           (update_fields kwargs)
           (Some match UPDATE_OLD st !! inst_key instance with
                 | Some data => OldMap data
                 | None => OldEmptyList
                 end) false])) ∧
  (let st' := postdelete_handler R order sender instance st in
   DELETES st' = delete (inst_key instance) (DELETES st) ∧
   DELETES st' !! inst_key instance = None ∧
   ∃ cs, calls st' = calls st ++ cs ∧
         once_per_model (default ∅ (DELETES st !! inst_key instance)) cs) ∧
  (∀ kwargs : M2MKwargs,
     action kwargs = Some "post_remove" →
     ∃ st' cs,
       m2m_handler R order get_fields has_manager sender instance kwargs st =
         Returns st' ∧
       M2M_REMOVE st' = delete (inst_key instance) (M2M_REMOVE st) ∧
       M2M_REMOVE st' !! inst_key instance = None ∧
       calls st' = calls st ++ cs ∧
       once_per_model (default ∅ (M2M_REMOVE st !! inst_key instance)) cs) ∧
  (∀ kwargs : M2MKwargs,
     action kwargs = Some "post_clear" →
     ∃ st' cs,
       m2m_handler R order get_fields has_manager sender instance kwargs st =
         Returns st' ∧
       M2M_CLEAR st' = delete (inst_key instance) (M2M_CLEAR st) ∧
       M2M_CLEAR st' !! inst_key instance = None ∧
       calls st' = calls st ++ cs ∧
       once_per_model (default ∅ (M2M_CLEAR st !! inst_key instance)) cs) ∧
  (∀ cs, once_per_model ∅ cs → cs = []).
Proof.
  intros once_per_model. split_and!.
  - intros kwargs st'. subst st'. unfold postsave_handler. split.
    + by intros ->.
    + intros ->. simpl. split_and!; [done|apply lookup_delete_eq|done].
  - intros st'. subst st'.
    rewrite postdelete_handler_buffer, postdelete_handler_calls.
    split; [done|]. split; [apply lookup_delete_eq|].
    eexists. split; [done|]. apply bulk_calls_once_per_model.
  - intros kwargs Hact. eexists. eexists.
    split; [by apply m2m_handler_post_remove|].
    rewrite bulk_update_all_calls.
    destruct (bulk_update_all_buffers R order
                (default ∅ (M2M_REMOVE st !! inst_key instance))
                (set_M2M_REMOVE
                   (delete (inst_key instance) (M2M_REMOVE st)) st))
      as (_ & -> & _).
    simpl. split_and!; [done|apply lookup_delete_eq|done|].
    apply bulk_calls_once_per_model.
  - intros kwargs Hact. eexists. eexists.
    split; [by apply m2m_handler_post_clear|].
    rewrite bulk_update_all_calls.
    destruct (bulk_update_all_buffers R order
                (default ∅ (M2M_CLEAR st !! inst_key instance))
                (set_M2M_CLEAR
                   (delete (inst_key instance) (M2M_CLEAR st)) st))
      as (_ & _ & -> & _).
    simpl. split_and!; [done|apply lookup_delete_eq|done|].
    apply bulk_calls_once_per_model.
  - intros cs (_ & Hlen & _). rewrite map_size_empty in Hlen.
    by apply nil_length_inv.
Qed.

Lemma post_phases_pop_entry_witness :
  let captured : pk_map :=
    {[ "Article" := ({[ 1; 2 ]}%Z, {[ "tagSummary" ]}) ]} in
  let st :=
    set_M2M_REMOVE {[ ("Tag", 7%Z) := captured ]}
      (Example.start Example.links) in
  let kwargs :=
    {| action := Some "post_remove"; model := "Article";
       pk_set := {[ 1%Z ]}; reverse := true |} in
  ∃ st' cs,
    m2m_handler Example.resolver Example.order Example.get_fields
      Example.has_manager "Article_tags" (Example.tag 7) kwargs st =
      Returns st' ∧
    M2M_REMOVE st' !! ("Tag", 7%Z) = None ∧
    calls st' = calls st ++ cs ∧
    Call_bulk_updater (TFilter "Article" {[ 1; 2 ]}%Z) {[ "tagSummary" ]}
      ∈ cs.
Proof.
  intros captured st kwargs.
  destruct (post_phases_pop_entry Example.resolver Example.order
              Example.get_fields Example.has_manager "Article_tags"
              (Example.tag 7) st) as (_ & _ & Hremove & _).
  destruct (Hremove kwargs eq_refl)
    as (st' & cs & Hret & _ & Hnone & Hcalls & _ & _ & Hin).
  exists st', cs. split; [exact Hret|]. split; [exact Hnone|].
  split; [exact Hcalls|].
  apply Hin. exists "Article", {[ 1; 2 ]}%Z, {[ "tagSummary" ]}.
  split; [reflexivity | reflexivity].
Defined.

(** C8 as stated fails for a raw [post_save].  Here a [pre_save] of an
    update stores the old dependents of the instance and the save does not
    complete; a raw [post_save] for the same instance then returns at once,
    and the entry is still in [UPDATE_OLD] afterwards. *)
Lemma raw_post_save_keeps_entry :
  let st :=
    get_old_handler Example.resolver "Bar" (Example.bar 1)
      {| raw := None; update_fields := None |}
      (Example.start Example.links) in
  let st' :=
    postsave_handler Example.resolver "Bar" (Example.bar 1)
      {| raw := Some true; update_fields := None |} st in
  st' = st ∧
  UPDATE_OLD st' !! ("Bar", 1%Z) =
    Some {[ "Foo" := ({[ 1%Z ]}, {[ "bars" ]}) ]}.
Proof. intros. split_and!; reflexivity. Qed.

(** C6, as the code has it.  A [post_add] event reads and writes no buffer
    and asks no query.  The handler searches the many-to-many fields of the
    instance's model, then those of the model of the added side, for the
    first field through the firing junction, and calls [update_dependent]
    once for each side on which it finds one: for the instance, restricted
    to the name of that field, and for the records of the added side with
    primary key in [pk_set], restricted to the name of the field found
    there.  These are two calls when both sides declare such a field, one
    when only one side does and none when neither does. *)
Theorem post_add_narrow_updates {DB : Type} (R : Resolver DB)
    (order : DictOrder) (get_fields : Model → list Field)
    (has_manager : Model → string → bool) (sender : Model)
    (instance : Instance) (kwargs : M2MKwargs) (st : State DB) :
  action kwargs = Some "post_add" →
  let narrow (t : Target) (f : Field) :=
    Call_update_dependent t None (Some {[ f_name f ]}) None false in
  let own := matching_field get_fields sender (inst_type instance) in
  let added := matching_field get_fields sender (model kwargs) in
  let added_side := TFilter (model kwargs) (pk_set kwargs) in
  ∃ st',
    m2m_handler R order get_fields has_manager sender instance kwargs st =
      Returns st' ∧
    calls st' =
      calls st ++
      (narrow (TInstance instance) <$> option_list own) ++
      (narrow added_side <$> option_list added) ∧
    DELETES st' = DELETES st ∧ M2M_REMOVE st' = M2M_REMOVE st ∧
    M2M_CLEAR st' = M2M_CLEAR st ∧ UPDATE_OLD st' = UPDATE_OLD st ∧
    (∀ f1 f2, own = Some f1 → added = Some f2 →
       calls st' =
         calls st ++ [narrow (TInstance instance) f1; narrow added_side f2]) ∧
    (own = None ∨ added = None →
     length (calls st') < length (calls st) + 2)%nat.
Proof.
  intros Hact narrow own added added_side. eexists.
  split; [by apply m2m_handler_post_add|].
  rewrite !update_first_through_head. subst own added.
  unfold matching_field.
  destruct (head (filter _ (filter many_to_many
                              (get_fields (inst_type instance))))) as [f1|],
    (head (filter _ (filter many_to_many (get_fields (model kwargs)))))
    as [f2|]; cbn; rewrite <- ?app_assoc, ?app_nil_r;
    (split_and!; try done).
  - by intros ?? [= <-] [= <-].
  - by intros [?|?].
  - intros _. rewrite length_app. cbn. lia.
  - intros _. rewrite length_app. cbn. lia.
  - intros _. lia.
Qed.

Lemma post_add_narrow_updates_witness :
  let kwargs :=
    {| action := Some "post_add"; model := "Tag"; pk_set := {[ 7%Z ]};
       reverse := false |} in
  ∃ st',
    m2m_handler Example.resolver Example.order Example.get_fields
      Example.has_manager "Article_tags" (Example.article 1) kwargs
      (Example.start Example.links) = Returns st' ∧
    calls st' =
      [Call_update_dependent (TInstance (Example.article 1)) None
         (Some {[ "tags" ]}) None false;
       Call_update_dependent (TFilter "Tag" {[ 7%Z ]}) None
         (Some {[ "article" ]}) None false].
Proof.
  intros kwargs.
  destruct (post_add_narrow_updates Example.resolver Example.order
              Example.get_fields Example.has_manager "Article_tags"
              (Example.article 1) kwargs (Example.start Example.links)
              eq_refl)
    as (st' & Hret & Hcalls & _).
  exists st'. split; [exact Hret | exact Hcalls].
Defined.

(** C6 as stated fails when only one side declares the relation.  With a
    hidden reverse accessor [Tag] lists no field through the junction, and a
    [post_add] makes one call, for the article, and none for the tags
    added. *)
Lemma post_add_hidden_reverse_one_update :
  let kwargs :=
    {| action := Some "post_add"; model := "Tag"; pk_set := {[ 7%Z ]};
       reverse := false |} in
  matching_field Example.hidden_reverse "Article_tags" "Tag" = None ∧
  ∃ st',
    m2m_handler Example.resolver Example.order Example.hidden_reverse
      Example.hidden_manager "Article_tags" (Example.article 1) kwargs
      (Example.start Example.links) = Returns st' ∧
    calls st' =
      [Call_update_dependent (TInstance (Example.article 1)) None
         (Some {[ "tags" ]}) None false].
Proof.
  intros. split; [reflexivity|].
  eexists. split; reflexivity.
Qed.

(** C5, as the code has it.  When no many-to-many field of either endpoint
    model goes through the firing junction: [post_add] returns normally with
    the state unchanged (no recomputation, no error); [pre_remove],
    [post_remove] and [post_clear] never look at the field declarations and
    return normally; [pre_clear] alone fails, with the [IndexError] of
    indexing the empty list of matching reverse relations, after its first
    query. *)
Theorem unmatched_junction_outcomes {DB : Type} (R : Resolver DB)
    (order : DictOrder) (get_fields : Model → list Field)
    (has_manager : Model → string → bool) (sender : Model)
    (instance : Instance)
    (kwargs : M2MKwargs) (st : State DB) :
  matching_field get_fields sender (inst_type instance) = None →
  matching_field get_fields sender (model kwargs) = None →
  (action kwargs = Some "post_add" →
   m2m_handler R order get_fields has_manager sender instance
     kwargs st = Returns st) ∧
  (action kwargs = Some "pre_remove" ∨ action kwargs = Some "post_remove" ∨
   action kwargs = Some "post_clear" →
   ∃ st', m2m_handler R order get_fields has_manager sender instance
            kwargs st = Returns st') ∧
  (action kwargs = Some "pre_clear" →
   m2m_handler R order get_fields has_manager sender instance kwargs st =
     Raises IndexError
       (query (Call_querysets_for_update (inst_type instance)
                 (TInstance instance) true) st)).
Proof.
  intros H1 H2. split_and!.
  - intros Hact. rewrite m2m_handler_post_add by done.
    unfold matching_field in *.
    by rewrite !update_first_through_head, H1, H2.
  - intros [Hact|[Hact|Hact]]; eexists.
    + by apply m2m_handler_pre_remove.
    + by apply m2m_handler_post_remove.
    + by apply m2m_handler_post_clear.
  - intros Hact. rewrite m2m_handler_pre_clear by done.
    unfold clear_accessor.
    by rewrite !matching_field_None_no_rel by done; destruct (reverse kwargs).
Qed.

Lemma unmatched_junction_outcomes_witness :
  m2m_handler Example.resolver Example.order Example.no_fields
      Example.no_manager "Article_tags"
    (Example.article 1)
    {| action := Some "pre_clear"; model := "Tag"; pk_set := ∅;
       reverse := false |}
    (Example.start Example.links) =
  Raises IndexError
    (query (Call_querysets_for_update "Article"
              (TInstance (Example.article 1)) true)
       (Example.start Example.links)).
Proof.
  apply (unmatched_junction_outcomes Example.resolver Example.order
           Example.no_fields Example.no_manager
           "Article_tags" (Example.article 1)
           {| action := Some "pre_clear"; model := "Tag"; pk_set := ∅;
              reverse := false |}
           (Example.start Example.links));
    reflexivity.
Defined.

(** C5 as stated fails on [post_add]: with no declaration through the
    firing junction on either endpoint model, the handler returns normally,
    having recomputed nothing and raised nothing. *)
Lemma post_add_unmatched_is_silent :
  let kwargs :=
    {| action := Some "post_add"; model := "Tag"; pk_set := {[ 7%Z ]};
       reverse := false |} in
  matching_field Example.no_fields "Article_tags" "Article" = None ∧
  matching_field Example.no_fields "Article_tags" "Tag" = None ∧
  m2m_handler Example.resolver Example.order Example.no_fields
      Example.no_manager "Article_tags"
    (Example.article 1) kwargs (Example.start Example.links) =
  Returns (Example.start Example.links).
Proof. intros. split_and!; reflexivity. Qed.




(** ** The merge on objects

    [merge_pk_maps] updates sets in place.  What it does to the objects of
    its second argument is a matter of which objects the two maps are made
    of, and is settled on the store of [Store]. *)

Section store_facts.

Import Store.

Implicit Types (h : gmap positive object) (l mm c : positive).
Implicit Types (d : list (string * positive)).

Lemma is_set_true h l : is_set h l = true ↔ ∃ s, h !! l = Some (OSet s).
Proof.
  unfold is_set.
  destruct (h !! l) as [[s| |]|]; split; try done; eauto; by intros [? [=]].
Qed.

Lemma is_cell_true h c :
  is_cell h c = true ↔
  ∃ a b, h !! c = Some (OList [a; b]) ∧
         is_set h a = true ∧ is_set h b = true.
Proof.
  unfold is_cell.
  destruct (h !! c) as [[|[|a [|b [|]]]|]|];
    try (split; [done | by intros (? & ? & [=] & _)]).
  rewrite andb_true_iff.
  split; [eauto | by intros (? & ? & [= <- <-] & ?)].
Qed.

Lemma is_pk_map_true h mm :
  is_pk_map h mm = true ↔
  ∃ d, h !! mm = Some (ODict d) ∧ NoDup d.*1 ∧
       ∀ kv, kv ∈ d → is_cell h kv.2 = true.
Proof.
  unfold is_pk_map.
  destruct (h !! mm) as [[| |d]|];
    try (split; [done | by intros (? & [=] & _)]).
  rewrite andb_true_iff, bool_decide_eq_true, forallb_forall.
  setoid_rewrite <- list_elem_of_In.
  split; [intros [? ?]; eauto | by intros (? & [= <-] & ? & ?)].
Qed.

Lemma elem_of_footprint h mm d l :
  h !! mm = Some (ODict d) →
  l ∈ footprint h mm ↔
  l = mm ∨ ∃ kv, kv ∈ d ∧ (l = kv.2 ∨ l ∈ cell_refs h kv.2).
Proof.
  intros Hmm. unfold footprint. rewrite Hmm.
  rewrite elem_of_union, elem_of_singleton, elem_of_union_list.
  split.
  - intros [?|(X & HX & Hl)]; [by left|right].
    apply list_elem_of_fmap in HX as (kv & -> & Hkv).
    exists kv. split; [done|]. set_solver.
  - intros [?|(kv & Hkv & Hl)]; [by left|right].
    exists ({[kv.2]} ∪ cell_refs h kv.2). split; [|set_solver].
    apply list_elem_of_fmap. by exists kv.
Qed.

Lemma self_in_footprint h mm : mm ∈ footprint h mm.
Proof.
  unfold footprint. destruct (h !! mm) as [[]|]; set_solver.
Qed.

Lemma footprint_dom h mm : is_pk_map h mm = true → footprint h mm ⊆ dom h.
Proof.
  intros (d & Hmm & _ & Hcells)%is_pk_map_true l Hl.
  apply (elem_of_footprint _ _ _ _ Hmm) in Hl.
  destruct Hl as [->|(kv & Hkv & Hl)]; [by apply elem_of_dom|].
  apply Hcells in Hkv. apply is_cell_true in Hkv as (a & b & Hc & Ha & Hb).
  apply is_set_true in Ha as [sa Ha]. apply is_set_true in Hb as [sb Hb].
  unfold cell_refs in Hl. rewrite Hc in Hl.
  assert (l = kv.2 ∨ l = a ∨ l = b) as [->|[->| ->]] by set_solver;
    by apply elem_of_dom.
Qed.


Lemma forallb_ext_in {A} (f g : A → bool) (xs : list A) :
  (∀ x, x ∈ xs → f x = g x) → forallb f xs = forallb g xs.
Proof.
  induction xs as [|x xs IH]; intros H; [done|]. simpl.
  rewrite (H x), IH; [done | intros; apply H | ]; set_solver.
Qed.

Lemma is_set_shape h h' l :
  shape <$> h' !! l = shape <$> h !! l → is_set h' l = is_set h l.
Proof.
  unfold is_set.
  destruct (h' !! l) as [[]|], (h !! l) as [[]|]; simpl; intros [=]; done.
Qed.

Lemma cell_refs_shape h h' c :
  shape <$> h' !! c = shape <$> h !! c → cell_refs h' c = cell_refs h c.
Proof.
  unfold cell_refs.
  destruct (h' !! c) as [[]|], (h !! c) as [[]|]; simpl; intros [=];
    by subst.
Qed.

Lemma is_cell_shape h h' c :
  shape <$> h' !! c = shape <$> h !! c →
  (∀ a, a ∈ cell_refs h c → shape <$> h' !! a = shape <$> h !! a) →
  is_cell h' c = is_cell h c.
Proof.
  unfold is_cell, cell_refs.
  destruct (h' !! c) as [[| l'|]|], (h !! c) as [[| l0|]|]; simpl;
    intros [=] Hr; subst; try done.
  destruct l0 as [|a [|b [|]]]; try done.
  rewrite (is_set_shape h h' a), (is_set_shape h h' b);
    [done | apply Hr; set_solver ..].
Qed.

(** A store that agrees with [h], up to the contents of sets, on the
    objects of a map holds a map of the same shape there. *)
Lemma footprint_shape h h' mm :
  (∀ l, l ∈ footprint h mm → shape <$> h' !! l = shape <$> h !! l) →
  footprint h' mm = footprint h mm ∧ is_pk_map h' mm = is_pk_map h mm.
Proof.
  intros Hag. pose proof (Hag mm (self_in_footprint h mm)) as Hmm.
  destruct (h !! mm) as [[| |d]|] eqn:Hh.
  1,2,4: unfold footprint, is_pk_map; rewrite Hh;
         destruct (h' !! mm) as [[]|]; simpl in Hmm;
         by inversion Hmm.
  assert (h' !! mm = Some (ODict d)) as Hh'.
  { destruct (h' !! mm) as [[]|]; simpl in Hmm; by inversion Hmm. }
  assert (∀ kv, kv ∈ d →
            cell_refs h' kv.2 = cell_refs h kv.2 ∧
            is_cell h' kv.2 = is_cell h kv.2) as Hkv.
  { intros kv Hin.
    assert (∀ l, l = kv.2 ∨ l ∈ cell_refs h kv.2 →
                 shape <$> h' !! l = shape <$> h !! l) as Hl.
    { intros l Hl. apply Hag. apply (elem_of_footprint _ _ _ _ Hh).
      right. by exists kv. }
    split.
    - apply cell_refs_shape. apply Hl. by left.
    - apply is_cell_shape; [apply Hl; by left|]. intros a Ha. apply Hl.
      by right. }
  unfold footprint, is_pk_map. rewrite Hh, Hh'. split.
  - f_equal. f_equal. apply Forall_fmap_ext_1, Forall_forall.
    intros kv Hin. by destruct (Hkv kv Hin) as [-> _].
  - f_equal. apply forallb_ext_in.
    intros kv Hin. by destruct (Hkv kv Hin) as [_ ->].
Qed.



Lemma dict_get_Some d model c : dict_get d model = Some c → (model, c) ∈ d.
Proof.
  induction d as [|[k v] d IH]; simpl; [done|].
  case_decide; [intros [= ->]; subst; left | right; auto].
Qed.

Lemma dict_get_None d model : dict_get d model = None → model ∉ d.*1.
Proof.
  induction d as [|[k v] d IH]; simpl; [set_solver|].
  case_decide; [done|]. set_solver.
Qed.

Lemma keeps_refl h mm1 :
  is_pk_map h mm1 = true → keeps h (footprint h mm1) mm1 h.
Proof. intros H. split_and!; auto. Qed.

Lemma keeps_alloc h0 F mm1 h o :
  keeps h0 F mm1 h →
  (fresh (dom h) ∉ dom h) ∧ keeps h0 F mm1 (<[fresh (dom h) := o]> h).
Proof.
  intros (Hmap & Hdom & Hframe & Hnew).
  pose proof (is_fresh (dom h)) as Hfresh. split; [done|].
  destruct (footprint_shape h (<[fresh (dom h) := o]> h) mm1) as [Hf Hm].
  { intros l Hl. rewrite lookup_insert_ne; [done|].
    intros <-. by apply footprint_dom in Hl. }
  split_and!.
  - by rewrite Hm.
  - rewrite dom_insert_L. set_solver.
  - intros l Hl HF. rewrite lookup_insert_ne; [auto|]. set_solver.
  - by rewrite Hf.
Qed.

Lemma keeps_set_update h0 F mm1 h a s s' :
  keeps h0 F mm1 h → a ∈ footprint h mm1 → h !! a = Some (OSet s) →
  keeps h0 F mm1 (<[a := OSet s']> h) ∧
  footprint (<[a := OSet s']> h) mm1 = footprint h mm1.
Proof.
  intros (Hmap & Hdom & Hframe & Hnew) Ha Hs.
  destruct (footprint_shape h (<[a := OSet s']> h) mm1) as [Hf Hm].
  { intros l _. rewrite lookup_insert. case_decide; [|done].
    subst. by rewrite Hs. }
  split; [|done]. split_and!.
  - by rewrite Hm.
  - rewrite dom_insert_L. set_solver.
  - intros l Hl HF. rewrite lookup_insert_ne; [auto|].
    intros <-. destruct (Hnew a Ha); done.
  - by rewrite Hf.
Qed.

Lemma is_cell_other h c mm o d :
  is_cell h c = true → h !! mm = Some (ODict d) →
  is_cell (<[mm := o]> h) c = true ∧
  cell_refs (<[mm := o]> h) c = cell_refs h c.
Proof.
  intros (a & b & Hc & [sa Ha]%is_set_true & [sb Hb]%is_set_true)%is_cell_true
    Hmm.
  assert (c ≠ mm ∧ a ≠ mm ∧ b ≠ mm) as (? & ? & ?)
    by (split_and!; intros ->; congruence).
  split.
  - apply is_cell_true. exists a, b.
    rewrite !is_set_true, !lookup_insert_ne by done. eauto.
  - unfold cell_refs. by rewrite lookup_insert_ne.
Qed.

Lemma keeps_append h0 F mm1 h d model c s1 s2 :
  keeps h0 F mm1 h → h !! mm1 = Some (ODict d) → dict_get d model = None →
  h !! c = Some (OList [s1; s2]) →
  is_set h s1 = true → is_set h s2 = true →
  c ∉ dom h0 → s1 ∉ dom h0 → s2 ∉ dom h0 →
  keeps h0 F mm1 (<[mm1 := ODict (d ++ [(model, c)])]> h).
Proof.
  intros (Hmap & Hdom & Hframe & Hnew) Hmm Hget Hc Hs1 Hs2 Hc0 Hs10 Hs20.
  apply is_pk_map_true in Hmap as (d' & Hd' & Hnd & Hcells).
  assert (d' = d) as -> by congruence.
  assert (is_cell h c = true) as Hcell
    by (apply is_cell_true; eauto).
  set (h' := <[mm1 := ODict (d ++ [(model, c)])]> h).
  assert (∀ kv, kv ∈ d ++ [(model, c)] →
            is_cell h' kv.2 = true ∧ cell_refs h' kv.2 = cell_refs h kv.2)
    as Hkv.
  { intros kv [Hin| ->%list_elem_of_singleton]%elem_of_app;
      eapply is_cell_other; eauto. }
  split_and!.
  - apply is_pk_map_true. exists (d ++ [(model, c)]).
    split; [apply lookup_insert_eq|]. split.
    + rewrite fmap_app. apply NoDup_app. split; [done|].
      split; [|apply NoDup_singleton].
      intros k Hk ->%list_elem_of_singleton.
      by apply dict_get_None in Hget.
    + intros kv Hin. by apply Hkv.
  - unfold h'. rewrite dom_insert_L. set_solver.
  - intros l Hl HF. unfold h'. rewrite lookup_insert_ne; [auto|].
    intros <-. destruct (Hnew mm1 (self_in_footprint h mm1)); done.
  - intros l Hl.
    apply (elem_of_footprint h' mm1 (d ++ [(model, c)])) in Hl;
      [|apply lookup_insert_eq].
    destruct Hl as [->|(kv & Hin & Hl)];
      [apply Hnew, self_in_footprint|].
    destruct (Hkv kv Hin) as [_ Hrefs]. rewrite Hrefs in Hl.
    apply elem_of_app in Hin as [Hin| ->%list_elem_of_singleton].
    + apply Hnew. apply (elem_of_footprint _ _ _ _ Hmm). right. eauto.
    + right. simpl in Hl. unfold cell_refs in Hl. rewrite Hc in Hl.
      assert (l = c ∨ l = s1 ∨ l = s2) as [->|[->| ->]] by set_solver; done.
Qed.

Lemma keeps_frame h0 F G mm1 h l :
  keeps h0 F mm1 h → G ⊆ dom h0 → F ## G → l ∈ G → h !! l = h0 !! l.
Proof. intros (_ & _ & Hframe & _) HG HFG Hl. apply Hframe; set_solver. Qed.

Lemma set_update_Some h a b sa sb :
  h !! a = Some (OSet sa) → h !! b = Some (OSet sb) →
  set_update a b h = Some (<[a := OSet (sa ∪ sb)]> h).
Proof. intros Ha Hb. unfold set_update. by rewrite Ha, Hb. Qed.

Lemma two_updates_keep h0 F G mm1 h a1 b1 a2 b2 :
  keeps h0 F mm1 h → G ⊆ dom h0 → F ## G →
  a1 ∈ footprint h mm1 → b1 ∈ footprint h mm1 →
  is_set h a1 = true → is_set h b1 = true →
  a2 ∈ G → b2 ∈ G → is_set h0 a2 = true → is_set h0 b2 = true →
  ∃ h', match set_update a1 a2 h with
        | None => None
        | Some h => set_update b1 b2 h
        end = Some h' ∧ keeps h0 F mm1 h'.
Proof.
  intros Hk HG HFG Ha1 Hb1 [sa1 Hsa1]%is_set_true [sb1 Hsb1]%is_set_true
    Ha2 Hb2 [sa2 Hsa2]%is_set_true [sb2 Hsb2]%is_set_true.
  rewrite (set_update_Some h a1 a2 sa1 sa2);
    [|done|by rewrite (keeps_frame h0 F G mm1 h a2)].
  destruct (keeps_set_update h0 F mm1 h a1 sa1 (sa1 ∪ sa2)) as [Hk1 Hf1];
    [done..|].
  set (h1 := <[a1 := OSet (sa1 ∪ sa2)]> h) in *.
  assert (∃ sb, h1 !! b1 = Some (OSet sb)) as [sb Hsb].
  { unfold h1. rewrite lookup_insert. case_decide; eauto. }
  rewrite (set_update_Some h1 b1 b2 sb sb2);
    [|done|by rewrite (keeps_frame h0 F G mm1 h1 b2)].
  eexists. split; [done|].
  eapply keeps_set_update; [done| |done]. by rewrite Hf1.
Qed.

(** One turn of the loop on an item whose objects lie in a region [G] of the
    store at the call that the first map does not reach. *)
Lemma merge_step_keeps h0 F G mm1 h model data a2 b2 :
  keeps h0 F mm1 h → G ⊆ dom h0 → F ## G →
  h0 !! data = Some (OList [a2; b2]) →
  is_set h0 a2 = true → is_set h0 b2 = true →
  data ∈ G → a2 ∈ G → b2 ∈ G →
  ∃ h', merge_step mm1 (model, data) h = Some h' ∧ keeps h0 F mm1 h'.
Proof.
  intros Hk HG HFG Hdata Hsa2 Hsb2 HdG Ha2G Hb2G.
  unfold merge_step, unpack2 at 1.
  rewrite (keeps_frame h0 F G mm1 h data), Hdata by done.
  unfold alloc.
  set (l1 := fresh (dom h)). set (h1 := <[l1 := OSet ∅]> h).
  set (l2 := fresh (dom h1)). set (h2 := <[l2 := OSet ∅]> h1).
  set (l3 := fresh (dom h2)). set (h3 := <[l3 := OList [l1; l2]]> h2).
  destruct (keeps_alloc h0 F mm1 h (OSet ∅) Hk) as [Hl1 Hk1].
  fold l1 h1 in Hl1, Hk1.
  destruct (keeps_alloc h0 F mm1 h1 (OSet ∅) Hk1) as [Hl2 Hk2].
  fold l2 h2 in Hl2, Hk2.
  destruct (keeps_alloc h0 F mm1 h2 (OList [l1; l2]) Hk2) as [Hl3 Hk3].
  fold l3 h3 in Hl3, Hk3.
  assert (dom h1 = {[l1]} ∪ dom h) as Hd1 by apply dom_insert_L.
  assert (dom h2 = {[l2]} ∪ dom h1) as Hd2 by apply dom_insert_L.
  assert (l1 ≠ l2 ∧ l1 ≠ l3 ∧ l2 ≠ l3) as (Hn12 & Hn13 & Hn23)
    by set_solver.
  assert (h3 !! l3 = Some (OList [l1; l2])) as Hc3
    by apply lookup_insert_eq.
  assert (h3 !! l1 = Some (OSet ∅)) as Hs1.
  { unfold h3, h2. rewrite !lookup_insert_ne by done.
    apply lookup_insert_eq. }
  assert (h3 !! l2 = Some (OSet ∅)) as Hs2.
  { unfold h3. rewrite lookup_insert_ne by done. apply lookup_insert_eq. }
  assert (dom h0 ⊆ dom h) as Hsub by apply Hk.
  assert ((l1 ∉ dom h0) ∧ (l2 ∉ dom h0) ∧ (l3 ∉ dom h0))
    as (H10 & H20 & H30)
    by set_solver.
  destruct Hk3 as (Hmap3 & Hk3').
  pose proof Hmap3 as (d & Hd & Hnd & Hcells)%is_pk_map_true.
  pose proof (conj Hmap3 Hk3') as Hk3. clear Hk3'.
  unfold setdefault. rewrite Hd.
  destruct (dict_get d model) as [cell|] eqn:Hget.
  - apply dict_get_Some in Hget.
    pose proof (Hcells _ Hget) as (a1 & b1 & Hcell & Ha1 & Hb1)%is_cell_true.
    simpl in Hcell. unfold unpack2. rewrite Hcell.
    eapply two_updates_keep; eauto;
      apply (elem_of_footprint _ _ _ _ Hd); right;
      exists (model, cell); (split; [done|]); simpl;
      unfold cell_refs; rewrite Hcell; set_solver.
  - set (d' := d ++ [(model, l3)]).
    set (h4 := <[mm1 := ODict d']> h3).
    assert (keeps h0 F mm1 h4) as Hk4.
    { apply (keeps_append h0 F mm1 h3 d model l3 l1 l2); try done;
        apply is_set_true; eauto. }
    assert (l3 ≠ mm1 ∧ l1 ≠ mm1 ∧ l2 ≠ mm1) as (? & ? & ?)
      by (split_and!; intros Heq; rewrite Heq in *; congruence).
    assert (h4 !! l3 = Some (OList [l1; l2])) as Hc4
      by (unfold h4; by rewrite lookup_insert_ne).
    unfold unpack2. rewrite Hc4.
    assert (h4 !! mm1 = Some (ODict d')) as Hd4 by apply lookup_insert_eq.
    apply (two_updates_keep h0 F G mm1 h4 l1 l2 a2 b2); try done.
    + apply (elem_of_footprint _ _ _ _ Hd4). right.
      exists (model, l3). split; [set_solver|]. simpl.
      unfold cell_refs. rewrite Hc4. set_solver.
    + apply (elem_of_footprint _ _ _ _ Hd4). right.
      exists (model, l3). split; [set_solver|]. simpl.
      unfold cell_refs. rewrite Hc4. set_solver.
    + apply is_set_true. unfold h4. rewrite lookup_insert_ne by done. eauto.
    + apply is_set_true. unfold h4. rewrite lookup_insert_ne by done. eauto.
Qed.

Lemma for_items_keeps h0 F G mm1 its :
  G ⊆ dom h0 → F ## G →
  Forall (λ kv : string * positive,
            is_cell h0 kv.2 = true ∧ {[kv.2]} ∪ cell_refs h0 kv.2 ⊆ G) its →
  ∀ h, keeps h0 F mm1 h →
  ∃ h', for_items mm1 its h = Some h' ∧ keeps h0 F mm1 h'.
Proof.
  intros HG HFG. induction 1 as [|[model data] its [Hcell Hin] _ IH];
    intros h Hk; cbn [for_items]; [eauto|].
  apply is_cell_true in Hcell as (a2 & b2 & Hdata & Ha2 & Hb2).
  cbn [snd] in *. unfold cell_refs in Hin. rewrite Hdata in Hin.
  destruct (merge_step_keeps h0 F G mm1 h model data a2 b2)
    as (h1 & -> & Hk1); [done..|set_solver|set_solver|set_solver|].
  by apply IH.
Qed.

Lemma read_map_frame h h' mm :
  (∀ l, l ∈ footprint h mm → h' !! l = h !! l) →
  read_map h' mm = read_map h mm.
Proof.
  intros Hsame. unfold read_map.
  rewrite (Hsame mm (self_in_footprint h mm)).
  destruct (h !! mm) as [[| |d]|] eqn:Hd; try done.
  apply list_fmap_ext. intros i [k c] Hi. simpl. f_equal.
  assert (∀ l, l ∈ {[c]} ∪ cell_refs h c → h' !! l = h !! l) as Hc.
  { intros l Hl. apply Hsame, (elem_of_footprint _ _ _ _ Hd). right.
    exists (k, c). split; [by eapply list_elem_of_lookup_2|].
    set_solver. }
  unfold read_cell. rewrite (Hc c) by set_solver.
  unfold cell_refs in Hc.
  destruct (h !! c) as [[|[|a [|b [|]]]|]|]; try done.
  unfold read_set. by rewrite !Hc by set_solver.
Qed.

End store_facts.

(** C10 (amended): called on two dependent-update maps that share no object,
    [merge_pk_maps] returns its first argument; every object of the second
    map, hence its value and its set of objects, is as before the call; the
    returned map is made of objects of the first map and of new objects
    only, so it shares none with the second map, and overwriting any object
    of the returned map afterwards leaves the second map's value as it
    was. *)
Theorem merge_pk_maps_frame (h : gmap positive Store.object)
    (mm1 mm2 : positive) :
  Store.is_pk_map h mm1 = true →
  Store.is_pk_map h mm2 = true →
  Store.footprint h mm1 ## Store.footprint h mm2 →
  ∃ h', Store.merge_pk_maps mm1 mm2 h = Some (mm1, h') ∧
    (∀ l, l ∈ Store.footprint h mm2 → h' !! l = h !! l) ∧
    Store.read_map h' mm2 = Store.read_map h mm2 ∧
    Store.footprint h' mm2 = Store.footprint h mm2 ∧
    Store.is_pk_map h' mm1 = true ∧
    (∀ l, l ∈ Store.footprint h' mm1 →
          l ∈ Store.footprint h mm1 ∨ l ∉ dom h) ∧
    Store.footprint h' mm1 ## Store.footprint h' mm2 ∧
    (∀ l o, l ∈ Store.footprint h' mm1 →
            Store.read_map (<[l := o]> h') mm2 = Store.read_map h mm2).
Proof.
  intros Hm1 Hm2 Hdisj.
  pose proof (footprint_dom h mm2 Hm2) as HG.
  pose proof Hm2 as (d2 & Hd2 & _ & Hcells)%is_pk_map_true.
  destruct (for_items_keeps h (Store.footprint h mm1)
              (Store.footprint h mm2) mm1 d2 HG Hdisj) with (h := h)
    as (h' & Hrun & Hk).
  { apply Forall_forall. intros kv Hin. split; [by apply Hcells|].
    intros l Hl. apply (elem_of_footprint _ _ _ _ Hd2). right.
    exists kv. split; [done|]. set_solver. }
  { by apply keeps_refl. }
  exists h'. unfold Store.merge_pk_maps. rewrite Hd2, Hrun.
  assert (∀ l, l ∈ Store.footprint h mm2 → h' !! l = h !! l) as Hsame.
  { intros l Hl. by eapply keeps_frame. }
  destruct (footprint_shape h h' mm2) as [Hf2 _].
  { intros l Hl. by rewrite Hsame. }
  destruct Hk as (Hmap & Hdom & _ & Hnew).
  assert (Store.footprint h' mm1 ## Store.footprint h' mm2) as Hdisj'.
  { rewrite Hf2. intros l Hl1 Hl2.
    destruct (Hnew l Hl1) as [?|Hfresh]; [set_solver|].
    apply Hfresh. by apply HG. }
  split_and!; try done.
  - by apply read_map_frame.
  - intros l o Hl. apply read_map_frame. intros l' Hl'.
    rewrite lookup_insert_ne; [by apply Hsame|].
    intros <-. apply (Hdisj' l); [done|]. by rewrite Hf2.
Qed.

Lemma merge_pk_maps_frame_witness :
  ∃ h', Store.merge_pk_maps 1 2 Store.separate = Some (1%positive, h') ∧
        Store.read_map h' 2 = Store.read_map Store.separate 2.
Proof.
  destruct (merge_pk_maps_frame Store.separate 1 2) as (h' & Hrun & _ & Hread & _).
  - vm_compute; reflexivity.
  - vm_compute; reflexivity.
  - apply (bool_decide_unpack _). vm_compute. exact I.
  - exists h'. split; [exact Hrun | exact Hread].
Defined.

(** C10 as stated: on two dependent-update maps built around one shared set
    object the call adds a key to a set of the second map, and the returned
    map still holds that object. *)
Lemma merge_pk_maps_shared_set_alters_second :
  Store.is_pk_map Store.shared 1 = true ∧
  Store.is_pk_map Store.shared 2 = true ∧
  ∃ h', Store.merge_pk_maps 1 2 Store.shared = Some (1%positive, h') ∧
        Store.read_map h' 2 ≠ Store.read_map Store.shared 2 ∧
        6%positive ∈ Store.footprint h' 1 ∩ Store.footprint h' 2.
Proof.
  split; [reflexivity|]. split; [reflexivity|].
  exists (default ∅ (snd <$> Store.merge_pk_maps 1 2 Store.shared)).
  split; [reflexivity|]. split.
  - apply (bool_decide_unpack _). vm_compute. exact I.
  - apply (bool_decide_unpack _). vm_compute. exact I.
Qed.

(** * Further properties of the handlers *)

Section phase_facts.

Context {DB : Type} (R : Resolver DB) (order : DictOrder)
  (get_fields : Model → list Field) (has_manager : Model → string → bool).

Implicit Types (st : State DB) (instance : Instance).

Lemma bulk_calls_recompute (updates : pk_map) :
  forallb is_recompute (bulk_calls order updates) = true.
Proof.
  apply forallb_forall. intros c Hc%list_elem_of_In.
  by apply elem_of_bulk_calls in Hc as (m & pks & fields & _ & ->).
Qed.

Lemma get_old_handler_cases sender instance (kwargs : SaveKwargs) st :
  let data := preupdate_dependent R (db st) instance sender in
  let q := Call_preupdate_dependent instance sender in
  get_old_handler R sender instance kwargs st = st ∨
  get_old_handler R sender instance kwargs st = query q st ∨
  get_old_handler R sender instance kwargs st =
    set_UPDATE_OLD (<[inst_key instance := data]> (UPDATE_OLD st)) (query q st).
Proof.
  intros data q. unfold get_old_handler.
  destruct (truthy_flag (raw kwargs)); [by left|].
  destruct (inst_adding instance); [by left|].
  destruct (_fk_map R !! sender) as [fks|]; [|by left].
  case_bool_decide; [by left|].
  case_bool_decide; [by left|].
  case_bool_decide; auto.
Qed.

Lemma update_first_through_cases sender t (fs : list Field) st :
  update_first_through R sender t fs st = st ∨
  ∃ f, update_first_through R sender t fs st =
         call_update_dependent R t None (Some {[ f_name f ]}) None false st.
Proof.
  rewrite update_first_through_head.
  destruct (head _) as [f|]; eauto.
Qed.

Lemma m2m_handler_other sender instance (kwargs : M2MKwargs) st :
  action kwargs ≠ Some "post_add" → action kwargs ≠ Some "pre_remove" →
  action kwargs ≠ Some "post_remove" → action kwargs ≠ Some "pre_clear" →
  action kwargs ≠ Some "post_clear" →
  m2m_handler R order get_fields has_manager sender instance
    kwargs st = Returns st.
Proof.
  intros. unfold m2m_handler.
  by rewrite !bool_decide_eq_false_2 by done.
Qed.

(** The five actions the handler knows, or none of them. *)
Lemma action_cases (kwargs : M2MKwargs) :
  action kwargs = Some "post_add" ∨ action kwargs = Some "pre_remove" ∨
  action kwargs = Some "post_remove" ∨ action kwargs = Some "pre_clear" ∨
  action kwargs = Some "post_clear" ∨
  (action kwargs ≠ Some "post_add" ∧ action kwargs ≠ Some "pre_remove" ∧
   action kwargs ≠ Some "post_remove" ∧ action kwargs ≠ Some "pre_clear" ∧
   action kwargs ≠ Some "post_clear").
Proof.
  destruct (decide (action kwargs = Some "post_add")); [tauto|].
  destruct (decide (action kwargs = Some "pre_remove")); [tauto|].
  destruct (decide (action kwargs = Some "post_remove")); [tauto|].
  destruct (decide (action kwargs = Some "pre_clear")); [tauto|].
  destruct (decide (action kwargs = Some "post_clear")); tauto.
Qed.

End phase_facts.

(** X1. The two save handlers as a pair.  When [get_old_handler] captures
    a non-empty answer [data] for an update, then, whatever happens to the
    database in between, [postsave_handler] hands exactly that [data] to
    [update_dependent] as [old], writes through it, and leaves [UPDATE_OLD]
    as it was before the pair, without the entry of the instance. *)
Theorem save_round_trip {DB : Type} (R : Resolver DB) (sender : Model)
    (instance : Instance) (kwargs1 kwargs2 : SaveKwargs) (st : State DB) :
  truthy_flag (raw kwargs1) = false →
  truthy_flag (raw kwargs2) = false →
  inst_adding instance = false →
  default ∅ (_fk_map R !! sender) ≠ ∅ →
  (∀ uf, update_fields kwargs1 = Some uf →
         uf = ∅ ∨ default ∅ (_fk_map R !! sender) ∩ uf ≠ ∅) →
  let data := preupdate_dependent R (db st) instance sender in
  data ≠ ∅ →
  let st1 := get_old_handler R sender instance kwargs1 st in
  ∀ st2 : State DB,
    UPDATE_OLD st2 = UPDATE_OLD st1 →
    let st3 := postsave_handler R sender instance kwargs2 st2 in
    calls st3 =
      calls st2 ++
      [Call_update_dependent (TInstance instance) (Some sender)
         (update_fields kwargs2) (Some (OldMap data)) false] ∧
    db st3 =
      update_dependent R (TInstance instance) (Some sender)
        (update_fields kwargs2) (Some (OldMap data)) false (db st2) ∧
    UPDATE_OLD st3 = delete (inst_key instance) (UPDATE_OLD st).
Proof.
  intros Hraw1 Hraw2 Hadd Hfks Huf data Hdata st1 st2 Hst2 st3.
  subst st1 st3. rewrite get_old_handler_capture in Hst2 by done.
  fold data in Hst2. rewrite decide_False in Hst2 by done.
  cbn [UPDATE_OLD set_UPDATE_OLD query] in Hst2.
  unfold postsave_handler. rewrite Hraw2, Hst2, lookup_insert_eq.
  cbn. by rewrite delete_insert_eq.
Qed.

Lemma save_round_trip_witness :
  let kwargs := {| raw := None; update_fields := Some {[ "foo" ]} |} in
  let st1 :=
    get_old_handler Example.resolver "Bar" (Example.bar 1) kwargs
      (Example.start Example.links) in
  let st2 := Example.mutate ∅ st1 in
  calls (postsave_handler Example.resolver "Bar" (Example.bar 1) kwargs st2) =
    calls st2 ++
    [Call_update_dependent (TInstance (Example.bar 1)) (Some "Bar")
       (Some {[ "foo" ]})
       (Some (OldMap {[ "Foo" := ({[ 1%Z ]}, {[ "bars" ]}) ]})) false].
Proof.
  intros kwargs st1 st2.
  assert (default ∅ (_fk_map Example.resolver !! "Bar") ≠ ∅) as Hfks
    by (apply (bool_decide_unpack _); vm_compute; exact I).
  assert (∀ uf, update_fields kwargs = Some uf →
            uf = ∅ ∨ default ∅ (_fk_map Example.resolver !! "Bar") ∩ uf ≠ ∅)
    as Huf.
  { intros uf [= <-]. right. apply (bool_decide_unpack _).
    vm_compute. exact I. }
  assert (preupdate_dependent Example.resolver
            (db (Example.start Example.links)) (Example.bar 1) "Bar" ≠ ∅)
    as Hdata by (apply (bool_decide_unpack _); vm_compute; exact I).
  destruct (save_round_trip Example.resolver "Bar" (Example.bar 1) kwargs
              kwargs (Example.start Example.links) eq_refl eq_refl eq_refl
              Hfks Huf Hdata st2 eq_refl) as (Hcalls & _).
  exact Hcalls.
Defined.

(** X2. The capturing phases only ask.  [get_old_handler],
    [predelete_handler] and the [pre_remove] and [pre_clear] branches of
    [m2m_handler] (also when [pre_clear] fails) leave the database as it is,
    and each call they make is a query: at most one for [pre_save], exactly
    one for [pre_delete], one or two for the many-to-many pre phases. *)
Theorem pre_phases_only_query {DB : Type} (R : Resolver DB)
    (order : DictOrder) (get_fields : Model → list Field)
    (has_manager : Model → string → bool) (sender : Model)
    (instance : Instance)
    (st : State DB) :
  (∀ kwargs : SaveKwargs,
     let st' := get_old_handler R sender instance kwargs st in
     db st' = db st ∧
     ∃ cs, calls st' = calls st ++ cs ∧
           forallb is_query cs = true ∧ (length cs ≤ 1)%nat) ∧
  (let st' := predelete_handler R sender instance st in
   db st' = db st ∧
   ∃ cs, calls st' = calls st ++ cs ∧
         forallb is_query cs = true ∧ length cs = 1) ∧
  (∀ kwargs : M2MKwargs,
     action kwargs = Some "pre_remove" ∨ action kwargs = Some "pre_clear" →
     let st' :=
       outcome_state
         (m2m_handler R order get_fields has_manager sender instance kwargs
            st) in
     db st' = db st ∧
     ∃ cs, calls st' = calls st ++ cs ∧
           forallb is_query cs = true ∧ (1 ≤ length cs ≤ 2)%nat).
Proof.
  split_and!.
  - intros kwargs st'. subst st'.
    destruct (get_old_handler_cases R sender instance kwargs st)
      as [-> | [-> | ->]]; cbn.
    + split; [done|]. exists []. rewrite app_nil_r. cbn. auto.
    + split; [done|]. eexists [_]. cbn. auto.
    + split; [done|]. eexists [_]. cbn. auto.
  - intros st'. subst st'. unfold predelete_handler.
    case_bool_decide; (split; [done|]); by eexists [_].
  - intros kwargs [Hact|Hact] st'; subst st'.
    + rewrite m2m_handler_pre_remove by done.
      case_decide; (split; [done|]); eexists [_; _]; cbn;
        rewrite <- app_assoc; auto.
    + rewrite m2m_handler_pre_clear by done.
      destruct (clear_accessor get_fields sender instance kwargs) as [name|];
        [destruct (has_manager (inst_type instance) name);
           cbv zeta; [case_decide|]|]; (split; [done|]).
      * eexists [_; _]; cbn. rewrite <- app_assoc. auto.
      * eexists [_; _]; cbn. rewrite <- app_assoc. auto.
      * eexists [_]; cbn. auto.
      * eexists [_]; cbn. auto.
Qed.

Lemma pre_phases_only_query_witness :
  let kwargs :=
    {| action := Some "pre_remove"; model := "Tag"; pk_set := {[ 7%Z ]};
       reverse := false |} in
  let st := Example.start Example.links in
  db (outcome_state
        (m2m_handler Example.resolver Example.order Example.get_fields
      Example.has_manager "Article_tags"
           (Example.article 1) kwargs st)) = db st.
Proof.
  intros kwargs st.
  destruct (pre_phases_only_query Example.resolver Example.order
              Example.get_fields Example.has_manager
              "Article_tags" (Example.article 1) st) as (_ & _ & Hm2m).
  destruct (Hm2m kwargs (or_introl eq_refl)) as [Hdb _].
  exact Hdb.
Defined.

(** X3. The draining phases only recompute.  [postsave_handler],
    [postdelete_handler] and the [post_add], [post_remove] and [post_clear]
    branches of [m2m_handler] issue no query, every call they make is a
    recomputation, and they never add to a buffer: what a buffer holds
    afterwards it held before. *)
Theorem post_phases_only_recompute {DB : Type} (R : Resolver DB)
    (order : DictOrder) (get_fields : Model → list Field)
    (has_manager : Model → string → bool) (sender : Model)
    (instance : Instance)
    (st : State DB) :
  (∀ kwargs : SaveKwargs,
     let st' := postsave_handler R sender instance kwargs st in
     UPDATE_OLD st' ⊆ UPDATE_OLD st ∧
     ∃ cs, calls st' = calls st ++ cs ∧
           forallb is_recompute cs = true ∧ (length cs ≤ 1)%nat) ∧
  (let st' := postdelete_handler R order sender instance st in
   DELETES st' ⊆ DELETES st ∧
   ∃ cs, calls st' = calls st ++ cs ∧ forallb is_recompute cs = true) ∧
  (∀ kwargs : M2MKwargs,
     action kwargs = Some "post_add" ∨ action kwargs = Some "post_remove" ∨
     action kwargs = Some "post_clear" →
     ∃ st', m2m_handler R order get_fields has_manager sender instance
              kwargs st = Returns st' ∧
       M2M_REMOVE st' ⊆ M2M_REMOVE st ∧ M2M_CLEAR st' ⊆ M2M_CLEAR st ∧
       ∃ cs, calls st' = calls st ++ cs ∧ forallb is_recompute cs = true).
Proof.
  split_and!.
  - intros kwargs st'. subst st'. unfold postsave_handler.
    destruct (truthy_flag (raw kwargs)); cbn.
    + split; [done|]. exists []. rewrite app_nil_r. cbn. auto.
    + split; [apply delete_subseteq|]. eexists [_]. cbn. auto.
  - intros st'. subst st'.
    rewrite postdelete_handler_buffer, postdelete_handler_calls.
    split; [apply delete_subseteq|].
    eexists. split; [done|]. apply bulk_calls_recompute.
  - intros kwargs [Hact|[Hact|Hact]]; eexists.
    + split; [by apply m2m_handler_post_add|].
      destruct (update_first_through_cases R sender (TInstance instance)
                  (filter many_to_many (get_fields (inst_type instance))) st)
        as [-> | [f1 ->]];
      match goal with
      | |- context [update_first_through R sender ?t ?fs ?s] =>
          destruct (update_first_through_cases R sender t fs s)
            as [-> | [f2 ->]]
      end; cbn; (split; [done|]); (split; [done|]).
      * exists []. by rewrite app_nil_r.
      * by eexists [_].
      * by eexists [_].
      * eexists [_; _]. by rewrite <- app_assoc.
    + split; [by apply m2m_handler_post_remove|].
      rewrite bulk_update_all_calls.
      destruct (bulk_update_all_buffers R order
                  (default ∅ (M2M_REMOVE st !! inst_key instance))
                  (set_M2M_REMOVE
                     (delete (inst_key instance) (M2M_REMOVE st)) st))
        as (_ & -> & -> & _). cbn.
      split; [apply delete_subseteq|]. split; [done|].
      eexists. split; [done|]. apply bulk_calls_recompute.
    + split; [by apply m2m_handler_post_clear|].
      rewrite bulk_update_all_calls.
      destruct (bulk_update_all_buffers R order
                  (default ∅ (M2M_CLEAR st !! inst_key instance))
                  (set_M2M_CLEAR
                     (delete (inst_key instance) (M2M_CLEAR st)) st))
        as (_ & -> & -> & _). cbn.
      split; [done|]. split; [apply delete_subseteq|].
      eexists. split; [done|]. apply bulk_calls_recompute.
Qed.

Lemma post_phases_only_recompute_witness :
  let kwargs :=
    {| action := Some "post_add"; model := "Tag"; pk_set := {[ 7%Z ]};
       reverse := false |} in
  let st := Example.start Example.links in
  ∃ st', m2m_handler Example.resolver Example.order Example.get_fields
      Example.has_manager "Article_tags"
           (Example.article 1) kwargs st = Returns st' ∧
         M2M_REMOVE st' ⊆ M2M_REMOVE st.
Proof.
  intros kwargs st.
  destruct (post_phases_only_recompute Example.resolver Example.order
              Example.get_fields Example.has_manager
              "Article_tags" (Example.article 1) st) as (_ & _ & Hm2m).
  destruct (Hm2m kwargs (or_introl eq_refl)) as (st' & Hret & Hsub & _).
  exists st'. split; [exact Hret | exact Hsub].
Defined.

Section frame_facts.

Context {DB : Type} (R : Resolver DB) (order : DictOrder)
  (get_fields : Model → list Field) (has_manager : Model → string → bool).

Implicit Types (st : State DB) (instance : Instance).

Lemma update_first_through_buffers sender t (fs : list Field) st :
  let st' := update_first_through R sender t fs st in
  DELETES st' = DELETES st ∧ M2M_REMOVE st' = M2M_REMOVE st ∧
  M2M_CLEAR st' = M2M_CLEAR st ∧ UPDATE_OLD st' = UPDATE_OLD st.
Proof.
  intros st'. subst st'.
  by destruct (update_first_through_cases R sender t fs st) as [-> | [f ->]].
Qed.

End frame_facts.

(** X4. A handler touches one entry of one buffer.  For a key other than
    that of the instance, the save handlers leave [UPDATE_OLD] at that key,
    the delete handlers [DELETES] at that key, and [m2m_handler], for every
    action and whether it returns or fails, [M2M_REMOVE] and [M2M_CLEAR] at
    that key as they were; the buffers of the other signals are not touched
    at all. *)
Theorem handlers_touch_own_entry_only {DB : Type} (R : Resolver DB)
    (order : DictOrder) (get_fields : Model → list Field)
    (has_manager : Model → string → bool) (sender : Model)
    (instance : Instance)
    (st : State DB) (k : string * Z) :
  k ≠ inst_key instance →
  (∀ (kwargs : SaveKwargs) (st' : State DB),
     st' = get_old_handler R sender instance kwargs st ∨
     st' = postsave_handler R sender instance kwargs st →
     UPDATE_OLD st' !! k = UPDATE_OLD st !! k ∧
     DELETES st' = DELETES st ∧ M2M_REMOVE st' = M2M_REMOVE st ∧
     M2M_CLEAR st' = M2M_CLEAR st) ∧
  (∀ st' : State DB,
     st' = predelete_handler R sender instance st ∨
     st' = postdelete_handler R order sender instance st →
     DELETES st' !! k = DELETES st !! k ∧
     UPDATE_OLD st' = UPDATE_OLD st ∧ M2M_REMOVE st' = M2M_REMOVE st ∧
     M2M_CLEAR st' = M2M_CLEAR st) ∧
  (∀ kwargs : M2MKwargs,
     let st' :=
       outcome_state
         (m2m_handler R order get_fields has_manager sender instance kwargs
            st) in
     M2M_REMOVE st' !! k = M2M_REMOVE st !! k ∧
     M2M_CLEAR st' !! k = M2M_CLEAR st !! k ∧
     DELETES st' = DELETES st ∧ UPDATE_OLD st' = UPDATE_OLD st).
Proof.
  intros Hk. split_and!.
  - intros kwargs st' [-> | ->].
    + destruct (get_old_handler_cases R sender instance kwargs st)
        as [-> | [-> | ->]]; cbn; split_and!; try done.
      by apply lookup_insert_ne.
    + unfold postsave_handler. destruct (truthy_flag (raw kwargs)); cbn;
        split_and!; try done.
      by apply lookup_delete_ne.
  - intros st' [-> | ->].
    + unfold predelete_handler. case_bool_decide; cbn; split_and!; try done.
      by apply lookup_insert_ne.
    + unfold postdelete_handler.
      destruct (bulk_update_all_buffers R order
                  (default ∅ (DELETES st !! inst_key instance))
                  (set_DELETES (delete (inst_key instance) (DELETES st)) st))
        as (-> & -> & -> & ->). cbn. split_and!; try done.
      by apply lookup_delete_ne.
  - intros kwargs st'. subst st'.
    destruct (action_cases kwargs)
      as [Hact|[Hact|[Hact|[Hact|[Hact|(?&?&?&?&?)]]]]].
    + rewrite (m2m_handler_post_add R order get_fields has_manager)
        by done.
      cbn.
      destruct (update_first_through_buffers R sender
                  (TFilter (model kwargs) (pk_set kwargs))
                  (filter many_to_many (get_fields (model kwargs)))
                  (update_first_through R sender (TInstance instance)
                     (filter many_to_many (get_fields (inst_type instance)))
                     st)) as (-> & -> & -> & ->).
      by destruct (update_first_through_buffers R sender (TInstance instance)
                  (filter many_to_many (get_fields (inst_type instance))) st)
        as (-> & -> & -> & ->).
    + rewrite (m2m_handler_pre_remove R order get_fields has_manager)
        by done.
      case_decide; cbn; split_and!; try done.
      by apply lookup_insert_ne.
    + rewrite (m2m_handler_post_remove R order get_fields has_manager)
        by done.
      cbn.
      destruct (bulk_update_all_buffers R order
                  (default ∅ (M2M_REMOVE st !! inst_key instance))
                  (set_M2M_REMOVE
                     (delete (inst_key instance) (M2M_REMOVE st)) st))
        as (-> & -> & -> & ->). cbn. split_and!; try done.
      by apply lookup_delete_ne.
    + rewrite (m2m_handler_pre_clear R order get_fields has_manager)
        by done.
      destruct (clear_accessor get_fields sender instance kwargs) as [name|];
        [destruct (has_manager (inst_type instance) name);
           cbv zeta; [case_decide|]|]; cbn; split_and!; try done.
      by apply lookup_insert_ne.
    + rewrite (m2m_handler_post_clear R order get_fields has_manager)
        by done.
      cbn.
      destruct (bulk_update_all_buffers R order
                  (default ∅ (M2M_CLEAR st !! inst_key instance))
                  (set_M2M_CLEAR
                     (delete (inst_key instance) (M2M_CLEAR st)) st))
        as (-> & -> & -> & ->). cbn. split_and!; try done.
      by apply lookup_delete_ne.
    + by rewrite (m2m_handler_other R order get_fields has_manager)
        by done.
Qed.

Lemma handlers_touch_own_entry_only_witness :
  let st :=
    set_DELETES {[ ("Tag", 8%Z) := {[ "Article" := ({[ 2%Z ]}, ∅) ]} ]}
      (Example.start Example.links) in
  DELETES (predelete_handler Example.resolver "Tag" (Example.tag 7) st)
    !! ("Tag", 8%Z) = DELETES st !! ("Tag", 8%Z).
Proof.
  intros st.
  assert (("Tag", 8%Z) ≠ inst_key (Example.tag 7)) as Hk by discriminate.
  destruct (handlers_touch_own_entry_only Example.resolver Example.order
              Example.get_fields Example.has_manager
              "Tag" (Example.tag 7) st ("Tag", 8%Z) Hk) as (_ & Hdel & _).
  destruct (Hdel _ (or_introl eq_refl)) as [Hother _].
  exact Hother.
Defined.

(** X5. [m2m_handler] acts on five actions only.  For any other value of
    [action] ([pre_add], or none given) it returns at once: nothing is
    queried, stored or recomputed. *)
Theorem m2m_handler_ignores_other_actions {DB : Type} (R : Resolver DB)
    (order : DictOrder) (get_fields : Model → list Field)
    (has_manager : Model → string → bool) (sender : Model)
    (instance : Instance)
    (kwargs : M2MKwargs) (st : State DB) :
  action kwargs ∉
    [Some "post_add"; Some "pre_remove"; Some "post_remove";
     Some "pre_clear"; Some "post_clear"] →
  m2m_handler R order get_fields has_manager sender instance
    kwargs st = Returns st.
Proof.
  intros Hact. apply m2m_handler_other; intros Heq; apply Hact;
    rewrite Heq; set_solver.
Qed.

Lemma m2m_handler_ignores_other_actions_witness :
  m2m_handler Example.resolver Example.order Example.get_fields
      Example.has_manager "Article_tags"
    (Example.article 1)
    {| action := Some "pre_add"; model := "Tag"; pk_set := {[ 7%Z ]};
       reverse := false |}
    (Example.start Example.links) = Returns (Example.start Example.links).
Proof.
  apply (m2m_handler_ignores_other_actions Example.resolver Example.order
           Example.get_fields Example.has_manager "Article_tags"
           (Example.article 1)).
  apply (bool_decide_unpack _). vm_compute. exact I.
Defined.

(** X6. The [post_add] branch in general.  Each of its two search loops
    stops at the first many-to-many field through the firing junction, so
    each side gets one call of [update_dependent], restricted to the name of
    that field, when it declares such a field and no call when it does not:
    at most two calls in all, and one when only one side matches. *)
Theorem post_add_one_update_per_matching_side {DB : Type} (R : Resolver DB)
    (order : DictOrder) (get_fields : Model → list Field)
    (has_manager : Model → string → bool) (sender : Model)
    (instance : Instance)
    (kwargs : M2MKwargs) (st : State DB) :
  action kwargs = Some "post_add" →
  let narrow (t : Target) (f : Field) :=
    Call_update_dependent t None (Some {[ f_name f ]}) None false in
  let cs1 :=
    narrow (TInstance instance) <$>
      option_list (matching_field get_fields sender (inst_type instance)) in
  let cs2 :=
    narrow (TFilter (model kwargs) (pk_set kwargs)) <$>
      option_list (matching_field get_fields sender (model kwargs)) in
  ∃ st', m2m_handler R order get_fields has_manager sender instance
           kwargs st = Returns st' ∧
    calls st' = calls st ++ cs1 ++ cs2 ∧
    (length (cs1 ++ cs2) ≤ 2)%nat.
Proof.
  intros Hact narrow cs1 cs2. eexists.
  split; [by apply m2m_handler_post_add|].
  rewrite !update_first_through_head. subst cs1 cs2.
  unfold matching_field.
  destruct (head (filter _ (filter many_to_many
                              (get_fields (inst_type instance))))) as [f1|],
    (head (filter _ (filter many_to_many (get_fields (model kwargs)))))
    as [f2|]; cbn; rewrite <- ?app_assoc, ?app_nil_r; auto.
Qed.

Lemma post_add_one_update_per_matching_side_witness :
  let kwargs :=
    {| action := Some "post_add"; model := "Tag"; pk_set := {[ 7%Z ]};
       reverse := false |} in
  ∃ st', m2m_handler Example.resolver Example.order Example.hidden_reverse
      Example.hidden_manager "Article_tags"
           (Example.article 1) kwargs (Example.start Example.links) =
         Returns st' ∧
    calls st' =
      [Call_update_dependent (TInstance (Example.article 1)) None
         (Some {[ "tags" ]}) None false].
Proof.
  intros kwargs.
  destruct (post_add_one_update_per_matching_side Example.resolver Example.order
              Example.hidden_reverse Example.hidden_manager "Article_tags"
              (Example.article 1)
              kwargs (Example.start Example.links) eq_refl)
    as (st' & Hret & Hcalls & _).
  exists st'. split; [exact Hret | exact Hcalls].
Defined.

(** X7. What [pre_clear] looks for.  It consults the declarations of one
    model only, the instance's for a reverse event and [model] otherwise,
    and only those of class [ManyToManyRel]: when none of them goes through
    the firing junction it fails with [IndexError] after its first query,
    whatever forward [ManyToManyField] is declared.  When one does, it reads
    the relation under the name taken from the first of them: it returns
    when the instance has a related manager under that name and fails with
    [AttributeError], also after its first query, when it has not. *)
Theorem pre_clear_needs_reverse_relation {DB : Type} (R : Resolver DB)
    (order : DictOrder) (get_fields : Model → list Field)
    (has_manager : Model → string → bool) (sender : Model)
    (instance : Instance) (kwargs : M2MKwargs) (st : State DB) :
  action kwargs = Some "pre_clear" →
  let consulted :=
    get_fields
      (if reverse kwargs then inst_type instance else model kwargs) in
  let q1 :=
    Call_querysets_for_update (inst_type instance) (TInstance instance)
      true in
  (Forall (λ f, f_class f ≠ ManyToManyRel ∨ f_through f ≠ sender) consulted →
   m2m_handler R order get_fields has_manager sender instance kwargs st =
     Raises IndexError (query q1 st)) ∧
  (Exists (λ f, f_class f = ManyToManyRel ∧ f_through f = sender) consulted →
   ∃ name,
     clear_accessor get_fields sender instance kwargs = Some name ∧
     if has_manager (inst_type instance) name
     then ∃ st', m2m_handler R order get_fields has_manager sender instance
                   kwargs st = Returns st'
     else m2m_handler R order get_fields has_manager sender instance kwargs
            st = Raises AttributeError (query q1 st)).
Proof.
  intros Hact consulted q1.
  rewrite (m2m_handler_pre_clear R order get_fields has_manager) by done.
  assert (∀ fs : list Field,
            Forall (λ f, f_class f ≠ ManyToManyRel ∨ f_through f ≠ sender) fs
            → filter (is_rel_through sender) fs = []) as Hnone.
  { induction 1 as [|f fs Hf _ IH]; [done|].
    assert (is_rel_through sender f = false) as Hb.
    { unfold is_rel_through.
      destruct Hf as [Hf|Hf]; destruct (f_class f); try done.
      by apply bool_decide_eq_false_2. }
    rewrite filter_cons_False; [done|]. rewrite Hb. cbn. tauto. }
  assert (∀ fs : list Field,
            Exists (λ f, f_class f = ManyToManyRel ∧ f_through f = sender) fs
            → ∃ f, head (filter (is_rel_through sender) fs) = Some f)
    as Hsome.
  { induction 1 as [f fs [Hc Ht]|f fs _ IH].
    - exists f.
      assert (is_rel_through sender f = true) as Hb.
      { unfold is_rel_through. rewrite Hc. by apply bool_decide_eq_true_2. }
      rewrite filter_cons_True; [done|]. rewrite Hb. exact I.
    - rewrite filter_cons. destruct (decide _); [by eexists|done]. }
  unfold clear_accessor. subst consulted. split.
  - intros Hall%Hnone. by destruct (reverse kwargs); rewrite Hall.
  - intros [f Hf]%Hsome.
    destruct (reverse kwargs); rewrite Hf;
      cbn [fmap option_fmap option_map]; eexists; (split; [done|]);
      destruct (has_manager _ _); cbv zeta; eauto.
Qed.

Lemma pre_clear_needs_reverse_relation_witness :
  let clear_tags :=
    {| action := Some "pre_clear"; model := "Tag"; pk_set := ∅;
       reverse := false |} in
  let clear_articles :=
    {| action := Some "pre_clear"; model := "Article"; pk_set := ∅;
       reverse := true |} in
  m2m_handler Example.resolver Example.order Example.hidden_reverse
    Example.hidden_manager "Article_tags" (Example.article 1) clear_tags
    (Example.start Example.links) =
    Raises IndexError
      (query (Call_querysets_for_update "Article"
                (TInstance (Example.article 1)) true)
         (Example.start Example.links)) ∧
  ∃ name,
    clear_accessor Example.named_reverse "Article_tags" (Example.tag 7)
      clear_articles = Some name ∧
    ∃ st',
      m2m_handler Example.resolver Example.order Example.named_reverse
        Example.named_manager "Article_tags" (Example.tag 7) clear_articles
        (Example.start Example.links) = Returns st'.
Proof.
  intros clear_tags clear_articles. split.
  - destruct (pre_clear_needs_reverse_relation Example.resolver Example.order
                Example.hidden_reverse Example.hidden_manager "Article_tags"
                (Example.article 1) clear_tags (Example.start Example.links)
                eq_refl) as [Hraise _].
    apply Hraise. vm_compute. constructor.
  - destruct (pre_clear_needs_reverse_relation Example.resolver Example.order
                Example.named_reverse Example.named_manager "Article_tags"
                (Example.tag 7) clear_articles (Example.start Example.links)
                eq_refl) as [_ Hfound].
    destruct Hfound as (name & Hname & Hrun).
    { apply Exists_cons_hd. split; reflexivity. }
    exists name. split; [exact Hname|].
    assert (name = "articles") as ->
      by (vm_compute in Hname; congruence).
    exact Hrun.
Defined.

Section drain_facts.

Context {DB : Type} (R : Resolver DB).

Lemma set_DELETES_id (st : State DB) : set_DELETES (DELETES st) st = st.
Proof. by destruct st. Qed.

Lemma set_M2M_REMOVE_id (st : State DB) :
  set_M2M_REMOVE (M2M_REMOVE st) st = st.
Proof. by destruct st. Qed.

Lemma set_M2M_CLEAR_id (st : State DB) :
  set_M2M_CLEAR (M2M_CLEAR st) st = st.
Proof. by destruct st. Qed.

End drain_facts.

(** X8. Draining an instance that has no entry does nothing: the state is
    returned as it is, for [postdelete_handler] and for the [post_remove]
    and [post_clear] branches.  So a second [post_delete] for the same
    instance changes nothing more. *)
Theorem drain_without_entry_is_noop {DB : Type} (R : Resolver DB)
    (order : DictOrder) (get_fields : Model → list Field)
    (has_manager : Model → string → bool) (sender : Model)
    (instance : Instance)
    (st : State DB) :
  (DELETES st !! inst_key instance = None →
   postdelete_handler R order sender instance st = st) ∧
  (∀ kwargs : M2MKwargs,
     action kwargs = Some "post_remove" →
     M2M_REMOVE st !! inst_key instance = None →
     m2m_handler R order get_fields has_manager sender instance
       kwargs st = Returns st) ∧
  (∀ kwargs : M2MKwargs,
     action kwargs = Some "post_clear" →
     M2M_CLEAR st !! inst_key instance = None →
     m2m_handler R order get_fields has_manager sender instance
       kwargs st = Returns st) ∧
  postdelete_handler R order sender instance
    (postdelete_handler R order sender instance st) =
  postdelete_handler R order sender instance st.
Proof.
  assert (∀ st0 : State DB,
            DELETES st0 !! inst_key instance = None →
            postdelete_handler R order sender instance st0 = st0) as Hdel.
  { intros st0 Hnone. unfold postdelete_handler.
    by rewrite Hnone, delete_id, set_DELETES_id, bulk_update_all_empty. }
  split_and!.
  - apply Hdel.
  - intros kwargs Hact Hnone.
    rewrite (m2m_handler_post_remove R order get_fields has_manager)
        by done.
    by rewrite Hnone, delete_id, set_M2M_REMOVE_id, bulk_update_all_empty.
  - intros kwargs Hact Hnone.
    rewrite (m2m_handler_post_clear R order get_fields has_manager)
        by done.
    by rewrite Hnone, delete_id, set_M2M_CLEAR_id, bulk_update_all_empty.
  - apply Hdel. rewrite postdelete_handler_buffer. apply lookup_delete_eq.
Qed.

Lemma drain_without_entry_is_noop_witness :
  postdelete_handler Example.resolver Example.order "Tag" (Example.tag 7)
    (Example.start Example.links) = Example.start Example.links.
Proof.
  destruct (drain_without_entry_is_noop Example.resolver Example.order
              Example.get_fields Example.has_manager
              "Tag" (Example.tag 7) (Example.start Example.links))
    as (Hdel & _).
  apply Hdel. reflexivity.
Defined.

(** X9. [postdelete_handler] recomputes each model of the captured map
    once: it makes as many [bulk_updater] calls as the map has models, no
    two of them alike, one for every model of the map and no model gets two
    calls. *)
Theorem drain_one_call_per_model {DB : Type} (R : Resolver DB)
    (order : DictOrder) (sender : Model) (instance : Instance)
    (st : State DB) :
  let updates := default ∅ (DELETES st !! inst_key instance) in
  ∃ cs,
    calls (postdelete_handler R order sender instance st) = calls st ++ cs ∧
    length cs = size updates ∧
    NoDup cs ∧
    (∀ m, m ∈ dom updates ↔
          ∃ pks fields, Call_bulk_updater (TFilter m pks) fields ∈ cs) ∧
    (∀ m pks fields pks' fields',
       Call_bulk_updater (TFilter m pks) fields ∈ cs →
       Call_bulk_updater (TFilter m pks') fields' ∈ cs →
       pks = pks' ∧ fields = fields').
Proof.
  intros updates. exists (bulk_calls order updates). split_and!.
  - apply postdelete_handler_calls.
  - apply bulk_calls_length.
  - apply bulk_calls_NoDup.
  - intros m. rewrite elem_of_dom. split.
    + intros [[pks fields] Hm]. exists pks, fields.
      apply elem_of_bulk_calls. by exists m, pks, fields.
    + intros (pks & fields & Hc).
      apply elem_of_bulk_calls in Hc as (? & ? & ? & Hm & [= <- <- <-]).
      by eexists.
  - intros m pks fields pks' fields' H1 H2.
    apply elem_of_bulk_calls in H1 as (? & ? & ? & Hm1 & [= <- <- <-]).
    apply elem_of_bulk_calls in H2 as (? & ? & ? & Hm2 & [= <- <- <-]).
    rewrite Hm1 in Hm2. by injection Hm2 as -> ->.
Qed.

(** X10. [merge_pk_maps] is idempotent: merging a map into itself, or
    merging one argument in a second time, changes nothing.  The merged map
    is empty only when both arguments are, which is what the [if data:] test
    after a merge decides. *)
Theorem merge_pk_maps_idempotent (A B : pk_map) :
  merge_pk_maps A A = A ∧
  merge_pk_maps (merge_pk_maps A B) B = merge_pk_maps A B ∧
  merge_pk_maps (merge_pk_maps A B) A = merge_pk_maps A B ∧
  (merge_pk_maps A B = ∅ ↔ A = ∅ ∧ B = ∅).
Proof.
  assert (∀ e : entry, entry_union e e = e) as Hidem.
  { intros [p f]. unfold entry_union. cbn. f_equal; set_solver. }
  assert (∀ A : pk_map, merge_pk_maps A A = A) as Hself.
  { intros A'. apply map_eq. intros m. rewrite merge_pk_maps_lookup.
    destruct (A' !! m) as [e|]; [|done].
    change (Some (entry_union e e) = Some e). by rewrite Hidem. }
  split_and!.
  - apply Hself.
  - by rewrite merge_pk_maps_assoc, Hself.
  - by rewrite (merge_pk_maps_comm A B), merge_pk_maps_assoc, Hself.
  - apply merge_pk_maps_is_empty.
Qed.


(** * The merge on objects and the merge on values *)

Section store_values.

Import Store.

Implicit Types (h : gmap positive object) (l mm c : positive).
Implicit Types (d : list (string * positive)).

Lemma cell_refs_sets h c : cell_refs h c = list_to_set (cell_sets h c).
Proof.
  unfold cell_refs, cell_sets. by destruct (h !! c) as [[]|].
Qed.

Lemma read_cell_frame h h' c :
  (∀ l, l ∈ {[c]} ∪ cell_refs h c → h' !! l = h !! l) →
  read_cell h' c = read_cell h c.
Proof.
  intros Hc. unfold read_cell. rewrite (Hc c) by set_solver.
  unfold cell_refs in Hc.
  destruct (h !! c) as [[|[|a [|b [|]]]|]|]; try done.
  unfold read_set. by rewrite !Hc by set_solver.
Qed.

Lemma read_entry_frame h h' mm model :
  (∀ l, l ∈ footprint h mm → h' !! l = h !! l) →
  read_entry h' mm model = read_entry h mm model.
Proof.
  intros Hsame. unfold read_entry.
  rewrite (Hsame mm (self_in_footprint h mm)).
  destruct (h !! mm) as [[| |d]|] eqn:Hd; try done.
  destruct (dict_get d model) as [c|] eqn:Hget; [|done]. cbn. f_equal.
  apply read_cell_frame. intros l Hl.
  apply Hsame, (elem_of_footprint _ _ _ _ Hd). right.
  exists (model, c). split; [by apply dict_get_Some|]. cbn. set_solver.
Qed.

Lemma sets_of_frame h h' mm :
  (∀ l, l ∈ footprint h mm → h' !! l = h !! l) →
  sets_of h' mm = sets_of h mm.
Proof.
  intros Hsame. unfold sets_of.
  rewrite (Hsame mm (self_in_footprint h mm)).
  destruct (h !! mm) as [[| |d]|] eqn:Hd; try done.
  apply Forall_bind_ext, Forall_forall. intros kv Hin.
  unfold cell_sets. rewrite Hsame; [done|].
  apply (elem_of_footprint _ _ _ _ Hd). right. exists kv. set_solver.
Qed.

Lemma dict_keys_frame h h' mm :
  h' !! mm = h !! mm → dict_keys h' mm = dict_keys h mm.
Proof. unfold dict_keys. by intros ->. Qed.

Lemma elem_of_sets_of h mm x : x ∈ sets_of h mm → x ∈ footprint h mm.
Proof.
  unfold sets_of. destruct (h !! mm) as [[| |d]|] eqn:Hd;
    try by intros ?%elem_of_nil.
  intros (kv & Hx & Hin)%list_elem_of_bind.
  apply (elem_of_footprint _ _ _ _ Hd). right. exists kv.
  split; [done|]. rewrite cell_refs_sets. set_solver.
Qed.

Lemma NoDup_bind_inv {A B} (f : A → list B) (xs : list A) :
  NoDup (xs ≫= f) →
  (∀ x, x ∈ xs → NoDup (f x)) ∧
  (∀ x1 x2 y, x1 ∈ xs → x2 ∈ xs → x1 ≠ x2 → y ∈ f x1 → y ∈ f x2 → False).
Proof.
  induction xs as [|x xs IH]; [split; intros; set_solver|].
  rewrite bind_cons. intros (Hx & Hdisj & Hrest)%NoDup_app.
  destruct (IH Hrest) as [IH1 IH2]. split.
  - intros x' [->|Hin]%elem_of_cons; auto.
  - intros x1 x2 y [->|H1]%elem_of_cons [->|H2]%elem_of_cons Hne Hy1 Hy2.
    + done.
    + apply (Hdisj y Hy1), list_elem_of_bind. eauto.
    + apply (Hdisj y Hy2), list_elem_of_bind. eauto.
    + eauto.
Qed.

Lemma filter_ext_in {A} (P Q : A → Prop) `{!∀ x, Decision (P x)}
    `{!∀ x, Decision (Q x)} (xs : list A) :
  (∀ x, x ∈ xs → P x ↔ Q x) → filter P xs = filter Q xs.
Proof.
  induction xs as [|x xs IH]; intros Hext; [done|].
  rewrite !filter_cons.
  rewrite IH by (intros; apply Hext; by right).
  destruct (decide (P x)) as [HP|HP], (decide (Q x)) as [HQ|HQ]; try done;
    exfalso; apply (Hext x) in HP || apply (Hext x) in HQ; try done;
    by left.
Qed.

Lemma dict_get_app d1 d2 model :
  dict_get (d1 ++ d2) model =
    match dict_get d1 model with
    | Some c => Some c
    | None => dict_get d2 model
    end.
Proof.
  induction d1 as [|[k v] d1 IH]; [done|]. cbn. by case_decide.
Qed.

Lemma dict_get_Some_key d model c :
  dict_get d model = Some c → model ∈ d.*1.
Proof.
  intros Hin%dict_get_Some. apply list_elem_of_fmap. by exists (model, c).
Qed.

Lemma read_set_insert h a s l :
  read_set (<[a := OSet s]> h) l = if decide (a = l) then s else read_set h l.
Proof. unfold read_set. rewrite lookup_insert. by case_decide. Qed.

Lemma sets_of_set_update h mm a s s' :
  h !! a = Some (OSet s) →
  sets_of (<[a := OSet s']> h) mm = sets_of h mm ∧
  dict_keys (<[a := OSet s']> h) mm = dict_keys h mm.
Proof.
  intros Ha. unfold sets_of, dict_keys. rewrite lookup_insert.
  case_decide as Hmm; [subst; by rewrite Ha|].
  destruct (h !! mm) as [[| |d]|]; try done. split; [|done].
  apply Forall_bind_ext, Forall_forall. intros kv _.
  unfold cell_sets. rewrite lookup_insert.
  case_decide; [subst; by rewrite Ha|done].
Qed.

(** The cells of a well-formed map and what they hold. *)
Lemma cell_of_pk_map h mm d k c :
  is_pk_map h mm = true → h !! mm = Some (ODict d) → (k, c) ∈ d →
  ∃ a b sa sb,
    h !! c = Some (OList [a; b]) ∧
    h !! a = Some (OSet sa) ∧ h !! b = Some (OSet sb) ∧
    c ≠ mm ∧ a ≠ mm ∧ b ≠ mm ∧ c ≠ a ∧ c ≠ b.
Proof.
  intros (d' & Hd' & _ & Hcells)%is_pk_map_true Hd Hin.
  assert (d' = d) as -> by congruence.
  pose proof (Hcells _ Hin)
    as (a & b & Hc & [sa Ha]%is_set_true & [sb Hb]%is_set_true)%is_cell_true.
  cbn in Hc. exists a, b, sa, sb.
  split_and!; try done; intros ->; congruence.
Qed.

Lemma read_entry_two_updates h mm d model c a b sa' sb' :
  is_pk_map h mm = true → NoDup (sets_of h mm) →
  h !! mm = Some (ODict d) → dict_get d model = Some c →
  h !! c = Some (OList [a; b]) →
  ∀ m, read_entry (<[b := OSet sb']> (<[a := OSet sa']> h)) mm m =
         if decide (m = model) then Some (sa', sb') else read_entry h mm m.
Proof.
  intros Hmap Hnd Hd Hget Hc m.
  pose proof (dict_get_Some _ _ _ Hget) as Hin.
  destruct (cell_of_pk_map h mm d model c Hmap Hd Hin)
    as (a' & b' & sa & sb & Hc' & Ha & Hb & ? & ? & ? & ? & ?).
  assert (a' = a ∧ b' = b) as [-> ->] by (split; congruence).
  unfold sets_of in Hnd. rewrite Hd in Hnd.
  apply NoDup_bind_inv in Hnd as [Hnd1 Hnd2].
  assert (a ≠ b) as Hab.
  { pose proof (Hnd1 _ Hin) as Hcell. unfold cell_sets in Hcell.
    cbn in Hcell. rewrite Hc in Hcell.
    apply NoDup_cons in Hcell as [Hcell _]. set_solver. }
  unfold read_entry. rewrite !lookup_insert_ne, Hd by done.
  case_decide as Hm.
  - subst m. rewrite Hget. cbn. f_equal. unfold read_cell.
    rewrite !lookup_insert_ne, Hc by done.
    rewrite !read_set_insert.
    rewrite (decide_False (P := b = a)) by done.
    by rewrite !decide_True by done.
  - destruct (dict_get d m) as [c1|] eqn:Hget1; [|done]. cbn. f_equal.
    pose proof (dict_get_Some _ _ _ Hget1) as Hin1.
    destruct (cell_of_pk_map h mm d m c1 Hmap Hd Hin1)
      as (a1 & b1 & sa1 & sb1 & Hc1 & Ha1 & Hb1 & ? & ? & ? & ? & ?).
    assert (∀ x y, x ∈ [a1; b1] → y ∈ [a; b] → x ≠ y) as Hsep.
    { intros x y Hx Hy ->.
      apply (Hnd2 (m, c1) (model, c) y); try done.
      - congruence.
      - unfold cell_sets. cbn. by rewrite Hc1.
      - unfold cell_sets. cbn. by rewrite Hc. }
    apply read_cell_frame. intros l Hl.
    unfold cell_refs in Hl. rewrite Hc1 in Hl.
    assert (l = c1 ∨ l = a1 ∨ l = b1) as Hcases by set_solver.
    assert (a ≠ l ∧ b ≠ l) as [??].
    { destruct Hcases as [->|[->| ->]].
      - split; intros <-; congruence.
      - split; apply not_eq_sym, Hsep; set_solver.
      - split; apply not_eq_sym, Hsep; set_solver. }
    by rewrite !lookup_insert_ne by done.
Qed.

Lemma append_effect h mm d model c s1 s2 :
  is_pk_map h mm = true → h !! mm = Some (ODict d) →
  dict_get d model = None →
  h !! c = Some (OList [s1; s2]) →
  h !! s1 = Some (OSet ∅) → h !! s2 = Some (OSet ∅) →
  let h' := <[mm := ODict (d ++ [(model, c)])]> h in
  (∀ m, read_entry h' mm m =
          if decide (m = model) then Some (∅, ∅) else read_entry h mm m) ∧
  sets_of h' mm = sets_of h mm ++ [s1; s2] ∧
  dict_keys h' mm = dict_keys h mm ++ [model].
Proof.
  intros Hmap Hd Hget Hc Hs1 Hs2 h'.
  assert (c ≠ mm ∧ s1 ≠ mm ∧ s2 ≠ mm) as (? & ? & ?)
    by (split_and!; intros ->; congruence).
  assert (∀ k c1, (k, c1) ∈ d →
            read_cell h' c1 = read_cell h c1 ∧
            cell_sets h' c1 = cell_sets h c1) as Hold.
  { intros k c1 Hin.
    destruct (cell_of_pk_map h mm d k c1 Hmap Hd Hin)
      as (a1 & b1 & sa1 & sb1 & Hc1 & Ha1 & Hb1 & ? & ? & ? & ? & ?).
    split.
    - apply read_cell_frame. intros l Hl.
      unfold cell_refs in Hl. rewrite Hc1 in Hl.
      unfold h'. rewrite lookup_insert_ne; [done|]. set_solver.
    - unfold cell_sets, h'. by rewrite lookup_insert_ne. }
  assert (read_cell h' c = (∅, ∅)) as Hnew.
  { unfold read_cell, h'. rewrite lookup_insert_ne, Hc by done.
    unfold read_set. by rewrite !lookup_insert_ne, Hs1, Hs2 by done. }
  assert (h' !! mm = Some (ODict (d ++ [(model, c)]))) as Hd'
    by apply lookup_insert_eq.
  assert (cell_sets h' c = [s1; s2]) as Hsets.
  { unfold cell_sets, h'. by rewrite lookup_insert_ne, Hc. }
  split_and!.
  - intros m. unfold read_entry.
    rewrite Hd', Hd, dict_get_app. cbn [dict_get].
    destruct (decide (m = model)) as [->|Hm].
    + rewrite Hget, decide_True by done. cbn. by rewrite Hnew.
    + rewrite (decide_False (P := model = m)) by done.
      destruct (dict_get d m) as [c1|] eqn:Hget1; [|done].
      cbn. by destruct (Hold m c1 (dict_get_Some _ _ _ Hget1)) as [-> _].
  - unfold sets_of. rewrite Hd', Hd, bind_app. f_equal.
    + apply Forall_bind_ext, Forall_forall. intros [k c1] Hin.
      cbn [snd]. by destruct (Hold k c1 Hin) as [_ ->].
    + by rewrite bind_singleton.
  - unfold dict_keys. rewrite Hd', Hd. by rewrite fmap_app.
Qed.

Lemma cell_sets_distinct h mm d k c a b :
  NoDup (sets_of h mm) → h !! mm = Some (ODict d) → (k, c) ∈ d →
  h !! c = Some (OList [a; b]) → a ≠ b.
Proof.
  intros Hnd Hd Hin Hc. unfold sets_of in Hnd. rewrite Hd in Hnd.
  apply NoDup_bind_inv in Hnd as [Hnd _].
  pose proof (Hnd _ Hin) as Hcell. unfold cell_sets in Hcell.
  cbn in Hcell. rewrite Hc in Hcell.
  apply NoDup_cons in Hcell as [Hcell _]. set_solver.
Qed.

Lemma two_updates_value h0 F G mm1 h d model c a1 b1 a2 b2 sa2 sb2 :
  keeps h0 F mm1 h → G ⊆ dom h0 → F ## G → NoDup (sets_of h mm1) →
  h !! mm1 = Some (ODict d) → dict_get d model = Some c →
  h !! c = Some (OList [a1; b1]) →
  a2 ∈ G → b2 ∈ G →
  h0 !! a2 = Some (OSet sa2) → h0 !! b2 = Some (OSet sb2) →
  ∃ h', match set_update a1 a2 h with
        | None => None
        | Some h => set_update b1 b2 h
        end = Some h' ∧
    keeps h0 F mm1 h' ∧ NoDup (sets_of h' mm1) ∧
    dict_keys h' mm1 = dict_keys h mm1 ∧
    ∀ m, read_entry h' mm1 m =
           if decide (m = model)
           then Some (read_set h a1 ∪ sa2, read_set h b1 ∪ sb2)
           else read_entry h mm1 m.
Proof.
  intros Hk HG HFG Hnd Hd Hget Hc Ha2 Hb2 Hsa2 Hsb2.
  pose proof Hk as (Hmap & _).
  pose proof (dict_get_Some _ _ _ Hget) as Hin.
  destruct (cell_of_pk_map h mm1 d model c Hmap Hd Hin)
    as (a & b & sa1 & sb1 & Hc' & Hsa1 & Hsb1 & _).
  assert (a = a1 ∧ b = b1) as [-> ->] by (split; congruence).
  pose proof (cell_sets_distinct h mm1 d model c a1 b1 Hnd Hd Hin Hc) as Hab.
  assert (a1 ∈ footprint h mm1 ∧ b1 ∈ footprint h mm1) as [Hfa Hfb].
  { split; apply (elem_of_footprint _ _ _ _ Hd); right;
      exists (model, c); (split; [done|]); cbn;
      unfold cell_refs; rewrite Hc; set_solver. }
  rewrite (set_update_Some h a1 a2 sa1 sa2);
    [|done|by rewrite (keeps_frame h0 F G mm1 h a2)].
  destruct (keeps_set_update h0 F mm1 h a1 sa1 (sa1 ∪ sa2)) as [Hk1 Hf1];
    [done..|].
  destruct (sets_of_set_update h mm1 a1 sa1 (sa1 ∪ sa2) Hsa1)
    as [Hs1 Hkeys1].
  set (h1 := <[a1 := OSet (sa1 ∪ sa2)]> h) in *.
  assert (h1 !! b1 = Some (OSet sb1)) as Hsb1'
    by (unfold h1; by rewrite lookup_insert_ne).
  rewrite (set_update_Some h1 b1 b2 sb1 sb2);
    [|done|by rewrite (keeps_frame h0 F G mm1 h1 b2)].
  destruct (keeps_set_update h0 F mm1 h1 b1 sb1 (sb1 ∪ sb2)) as [Hk2 Hf2];
    [done|by rewrite Hf1|done|].
  destruct (sets_of_set_update h1 mm1 b1 sb1 (sb1 ∪ sb2) Hsb1')
    as [Hs2 Hkeys2].
  eexists. split; [done|]. split; [done|].
  split; [by rewrite Hs2, Hs1|]. split; [by rewrite Hkeys2, Hkeys1|].
  intros m. unfold h1.
  rewrite (read_entry_two_updates h mm1 d model c a1 b1) by done.
  unfold read_set. by rewrite Hsa1, Hsb1.
Qed.

(** One turn of the loop, with what it does to the value of the first
    map. *)
Lemma merge_step_value h0 F G mm1 h model data a2 b2 sa2 sb2 :
  keeps h0 F mm1 h → G ⊆ dom h0 → F ## G → NoDup (sets_of h mm1) →
  h0 !! data = Some (OList [a2; b2]) →
  h0 !! a2 = Some (OSet sa2) → h0 !! b2 = Some (OSet sb2) →
  data ∈ G → a2 ∈ G → b2 ∈ G →
  ∃ h', merge_step mm1 (model, data) h = Some h' ∧
    keeps h0 F mm1 h' ∧ NoDup (sets_of h' mm1) ∧
    dict_keys h' mm1 =
      dict_keys h mm1 ++
      (if decide (model ∈ dict_keys h mm1) then [] else [model]) ∧
    ∀ m, read_entry h' mm1 m =
           if decide (m = model)
           then Some match read_entry h mm1 model with
                     | Some e => (e.1 ∪ sa2, e.2 ∪ sb2)
                     | None => (sa2, sb2)
                     end
           else read_entry h mm1 m.
Proof.
  intros Hk HG HFG Hnd Hdata Hsa2 Hsb2 HdG Ha2G Hb2G.
  unfold merge_step, unpack2 at 1.
  rewrite (keeps_frame h0 F G mm1 h data), Hdata by done.
  unfold alloc.
  set (l1 := fresh (dom h)). set (h1 := <[l1 := OSet ∅]> h).
  set (l2 := fresh (dom h1)). set (h2 := <[l2 := OSet ∅]> h1).
  set (l3 := fresh (dom h2)). set (h3 := <[l3 := OList [l1; l2]]> h2).
  destruct (keeps_alloc h0 F mm1 h (OSet ∅) Hk) as [Hl1 Hk1].
  fold l1 h1 in Hl1, Hk1.
  destruct (keeps_alloc h0 F mm1 h1 (OSet ∅) Hk1) as [Hl2 Hk2].
  fold l2 h2 in Hl2, Hk2.
  destruct (keeps_alloc h0 F mm1 h2 (OList [l1; l2]) Hk2) as [Hl3 Hk3].
  fold l3 h3 in Hl3, Hk3.
  assert (dom h1 = {[l1]} ∪ dom h) as Hd1 by apply dom_insert_L.
  assert (dom h2 = {[l2]} ∪ dom h1) as Hd2 by apply dom_insert_L.
  assert (l1 ≠ l2 ∧ l1 ≠ l3 ∧ l2 ≠ l3) as (Hn12 & Hn13 & Hn23)
    by set_solver.
  assert ((l2 ∉ dom h) ∧ (l3 ∉ dom h)) as [Hl2' Hl3'] by set_solver.
  assert (h3 !! l3 = Some (OList [l1; l2])) as Hc3
    by apply lookup_insert_eq.
  assert (h3 !! l1 = Some (OSet ∅)) as Hs1.
  { unfold h3, h2. rewrite !lookup_insert_ne by done.
    apply lookup_insert_eq. }
  assert (h3 !! l2 = Some (OSet ∅)) as Hs2.
  { unfold h3. rewrite lookup_insert_ne by done. apply lookup_insert_eq. }
  assert (dom h0 ⊆ dom h) as Hsub by apply Hk.
  assert ((l1 ∉ dom h0) ∧ (l2 ∉ dom h0) ∧ (l3 ∉ dom h0))
    as (H10 & H20 & H30) by set_solver.
  assert (∀ l, l ∈ dom h → h3 !! l = h !! l) as Hsame.
  { intros l Hl. unfold h3, h2, h1.
    rewrite !lookup_insert_ne; [done|..]; by intros <-. }
  pose proof Hk as (Hmap & _).
  pose proof (footprint_dom h mm1 Hmap) as Hfp.
  assert (∀ l, l ∈ footprint h mm1 → h3 !! l = h !! l) as Hsame'
    by (intros l Hl; by apply Hsame, Hfp).
  assert (∀ m, read_entry h mm1 m = read_entry h3 mm1 m) as Hre
    by (intros m; symmetry; by apply read_entry_frame).
  assert (dict_keys h mm1 = dict_keys h3 mm1) as Hkeys.
  { symmetry. apply dict_keys_frame, Hsame', self_in_footprint. }
  assert (NoDup (sets_of h3 mm1)) as Hnd3
    by (by rewrite (sets_of_frame h h3 mm1 Hsame')).
  rewrite Hkeys. clear Hkeys.
  pose proof Hk3 as (Hmap3 & _).
  pose proof Hmap3 as (d & Hd & Hndk & Hcells)%is_pk_map_true.
  unfold setdefault. rewrite Hd.
  destruct (dict_get d model) as [cell|] eqn:Hget.
  - pose proof (dict_get_Some _ _ _ Hget) as Hin.
    destruct (cell_of_pk_map h3 mm1 d model cell Hmap3 Hd Hin)
      as (a1 & b1 & sa1 & sb1 & Hcell & Hsa1 & Hsb1 & _).
    unfold unpack2. rewrite Hcell.
    destruct (two_updates_value h0 F G mm1 h3 d model cell a1 b1 a2 b2
                sa2 sb2) as (h' & -> & Hk' & Hnd' & Hkeys' & Hval);
      [done..|].
    exists h'. split; [done|]. split; [done|]. split; [done|]. split.
    + rewrite Hkeys'. unfold dict_keys. rewrite Hd.
      rewrite decide_True by (by eapply dict_get_Some_key).
      by rewrite app_nil_r.
    + intros m. rewrite Hval, !Hre. unfold read_entry. rewrite Hd, Hget.
      case_decide; [|done]. cbn. unfold read_cell. by rewrite Hcell.
  - set (d' := d ++ [(model, l3)]).
    set (h4 := <[mm1 := ODict d']> h3).
    assert (keeps h0 F mm1 h4) as Hk4.
    { apply (keeps_append h0 F mm1 h3 d model l3 l1 l2); try done;
        apply is_set_true; eauto. }
    destruct (append_effect h3 mm1 d model l3 l1 l2)
      as (Hval4 & Hsets4 & Hkeys4); [done..|].
    fold d' h4 in Hval4, Hsets4, Hkeys4.
    assert (l3 ≠ mm1 ∧ l1 ≠ mm1 ∧ l2 ≠ mm1) as (? & ? & ?)
      by (split_and!; intros Heq; rewrite Heq in *; congruence).
    assert (h4 !! l3 = Some (OList [l1; l2])) as Hc4
      by (unfold h4; by rewrite lookup_insert_ne).
    unfold unpack2. rewrite Hc4.
    assert (h4 !! mm1 = Some (ODict d')) as Hd4 by apply lookup_insert_eq.
    assert (NoDup (sets_of h4 mm1)) as Hnd4.
    { rewrite Hsets4. apply NoDup_app. split; [done|]. split.
      - intros x Hx. rewrite (sets_of_frame h h3 mm1 Hsame') in Hx.
        apply elem_of_sets_of, Hfp in Hx. set_solver.
      - apply NoDup_cons. split; [set_solver|apply NoDup_singleton]. }
    assert (dict_get d' model = Some l3) as Hget4.
    { unfold d'. rewrite dict_get_app, Hget. cbn.
      by rewrite decide_True. }
    destruct (two_updates_value h0 F G mm1 h4 d' model l3 l1 l2 a2 b2
                sa2 sb2) as (h' & -> & Hk' & Hnd' & Hkeys' & Hval);
      [done..|].
    exists h'. split; [done|]. split; [done|]. split; [done|]. split.
    + rewrite Hkeys', Hkeys4. unfold dict_keys. rewrite Hd.
      by rewrite decide_False by (by apply dict_get_None).
    + intros m. rewrite Hval, Hval4, !Hre. unfold read_entry.
      rewrite Hd, Hget.
      case_decide; [|done]. cbn.
      assert (read_set h4 l1 = ∅ ∧ read_set h4 l2 = ∅) as [-> ->].
      { unfold read_set, h4.
        by rewrite !lookup_insert_ne, Hs1, Hs2 by done. }
      by rewrite !(left_id_L ∅ (∪)).
Qed.

Lemma for_items_value h0 F G mm1 its :
  G ⊆ dom h0 → F ## G → NoDup its.*1 →
  Forall (λ kv : string * positive,
            is_cell h0 kv.2 = true ∧ {[kv.2]} ∪ cell_refs h0 kv.2 ⊆ G) its →
  ∀ h, keeps h0 F mm1 h → NoDup (sets_of h mm1) →
  ∃ h', for_items mm1 its h = Some h' ∧
    keeps h0 F mm1 h' ∧ NoDup (sets_of h' mm1) ∧
    dict_keys h' mm1 =
      dict_keys h mm1 ++ filter (λ k, k ∉ dict_keys h mm1) its.*1 ∧
    ∀ m, read_entry h' mm1 m =
           union_with (λ a b, Some (a.1 ∪ b.1, a.2 ∪ b.2))
             (read_entry h mm1 m) (read_cell h0 <$> dict_get its m).
Proof.
  intros HG HFG Hnd Hits.
  induction Hits as [|[model data] its [Hcell Hin] _ IH]; intros h Hk Hs.
  - exists h. cbn. split_and!; try done.
    + by rewrite app_nil_r.
    + intros m. by destruct (read_entry h mm1 m).
  - rewrite fmap_cons in Hnd. apply NoDup_cons in Hnd as [Hfresh Hnd].
    cbn [fst snd] in *.
    apply is_cell_true in Hcell
      as (a2 & b2 & Hdata & [sa2 Ha2]%is_set_true & [sb2 Hb2]%is_set_true).
    unfold cell_refs in Hin. rewrite Hdata in Hin.
    destruct (merge_step_value h0 F G mm1 h model data a2 b2 sa2 sb2)
      as (h1 & Hrun & Hk1 & Hs1 & Hkeys1 & Hval1);
      [done..|set_solver|set_solver|set_solver|].
    destruct (IH Hnd h1 Hk1 Hs1) as (h' & Hrun' & Hk' & Hs' & Hkeys' & Hval').
    exists h'. cbn [for_items]. rewrite Hrun.
    split; [done|]. split; [done|]. split; [done|]. split.
    + rewrite Hkeys', Hkeys1, fmap_cons, filter_cons. cbn [fst].
      destruct (decide (model ∈ dict_keys h mm1)) as [Hold|Hnew].
      * rewrite app_nil_r. by rewrite decide_False by (intros Hn; by apply Hn).
      * rewrite decide_True by done. rewrite <- app_assoc. cbn.
        do 2 f_equal. apply filter_ext_in. intros k Hk2.
        rewrite elem_of_app, list_elem_of_singleton.
        split; [tauto|]. intros Hk3 [?| ->]; done.
    + intros m. rewrite Hval', Hval1. cbn [dict_get].
      assert (read_cell h0 data = (sa2, sb2)) as Hrc.
      { unfold read_cell, read_set. by rewrite Hdata, Ha2, Hb2. }
      destruct (decide (m = model)) as [->|Hm].
      * rewrite decide_True by done.
        assert (dict_get its model = None) as ->.
        { destruct (dict_get its model) eqn:Hget; [|done].
          by apply dict_get_Some_key in Hget. }
        cbn. rewrite Hrc. by destruct (read_entry h mm1 model).
      * by rewrite (decide_False (P := model = m)) by done.
Qed.

Lemma merge_pk_maps_values h mm1 mm2 :
  is_pk_map h mm1 = true → is_pk_map h mm2 = true →
  footprint h mm1 ## footprint h mm2 → NoDup (sets_of h mm1) →
  ∃ h', Store.merge_pk_maps mm1 mm2 h = Some (mm1, h') ∧
    (∀ l, l ∈ footprint h mm2 → h' !! l = h !! l) ∧
    NoDup (sets_of h' mm1) ∧
    dict_keys h' mm1 =
      dict_keys h mm1 ++
      filter (λ k, k ∉ dict_keys h mm1) (dict_keys h mm2) ∧
    ∀ m, read_entry h' mm1 m =
           union_with (λ a b, Some (a.1 ∪ b.1, a.2 ∪ b.2))
             (read_entry h mm1 m) (read_entry h mm2 m).
Proof.
  intros Hm1 Hm2 Hdisj Hnd.
  pose proof (footprint_dom h mm2 Hm2) as HG.
  pose proof Hm2 as (d2 & Hd2 & Hnd2 & Hcells)%is_pk_map_true.
  destruct (for_items_value h (footprint h mm1) (footprint h mm2) mm1 d2
              HG Hdisj Hnd2) with (h := h)
    as (h' & Hrun & Hk & Hs & Hkeys & Hval); [| by apply keeps_refl |done|].
  { apply Forall_forall. intros kv Hin. split; [by apply Hcells|].
    intros l Hl. apply (elem_of_footprint _ _ _ _ Hd2). right.
    exists kv. split; [done|]. set_solver. }
  exists h'. unfold Store.merge_pk_maps. rewrite Hd2, Hrun.
  split; [done|]. split; [intros l Hl; by eapply keeps_frame|].
  split; [done|]. split.
  - assert (dict_keys h mm2 = d2.*1) as ->
      by (unfold dict_keys; by rewrite Hd2).
    done.
  - intros m.
    assert (read_entry h mm2 m = read_cell h <$> dict_get d2 m) as ->
      by (unfold read_entry; by rewrite Hd2).
    apply Hval.
Qed.

Lemma pk_map_of_lookup h mm m :
  pk_map_of h mm !! m = entry_of <$> read_entry h mm m.
Proof.
  unfold pk_map_of, read_entry.
  destruct (h !! mm) as [[| |d]|]; try done.
  induction d as [|[k c] d IH]; [done|].
  cbn. rewrite lookup_insert. by case_decide.
Qed.

Lemma entry_of_union (a b : gset (Z + string) * gset (Z + string)) :
  entry_of (a.1 ∪ b.1, a.2 ∪ b.2) = entry_union (entry_of a) (entry_of b).
Proof.
  unfold entry_of, entry_union. cbn. by rewrite !set_omap_union_L.
Qed.

End store_values.

(** X12. The run on objects computes the merge on values.  For two
    dependent-update maps that share no object, the first of which uses no
    set object twice, [merge_pk_maps] returns its first argument, whose
    value is then the value-level merge of the two values it was called on;
    the value of the second argument is as before, and the first map still
    uses no set object twice. *)
Theorem merge_pk_maps_refines (h : gmap positive Store.object)
    (mm1 mm2 : positive) :
  Store.is_pk_map h mm1 = true →
  Store.is_pk_map h mm2 = true →
  Store.footprint h mm1 ## Store.footprint h mm2 →
  NoDup (Store.sets_of h mm1) →
  ∃ h', Store.merge_pk_maps mm1 mm2 h = Some (mm1, h') ∧
    Store.pk_map_of h' mm1 =
      merge_pk_maps (Store.pk_map_of h mm1) (Store.pk_map_of h mm2) ∧
    Store.pk_map_of h' mm2 = Store.pk_map_of h mm2 ∧
    NoDup (Store.sets_of h' mm1).
Proof.
  intros Hm1 Hm2 Hdisj Hnd.
  destruct (merge_pk_maps_values h mm1 mm2 Hm1 Hm2 Hdisj Hnd)
    as (h' & Hrun & Hsame & Hnd' & _ & Hval).
  exists h'. split; [done|]. split_and!; [| |done].
  - apply map_eq. intros m.
    rewrite merge_pk_maps_lookup, !pk_map_of_lookup, Hval.
    destruct (Store.read_entry h mm1 m) as [a|],
      (Store.read_entry h mm2 m) as [b|]; try done.
    cbn. by rewrite entry_of_union.
  - apply map_eq. intros m. rewrite !pk_map_of_lookup. f_equal.
    by apply read_entry_frame.
Qed.

Lemma merge_pk_maps_refines_witness :
  ∃ h', Store.merge_pk_maps 1 2 Store.separate = Some (1%positive, h') ∧
    Store.pk_map_of h' 1 =
      merge_pk_maps (Store.pk_map_of Store.separate 1)
        (Store.pk_map_of Store.separate 2).
Proof.
  destruct (merge_pk_maps_refines Store.separate 1 2)
    as (h' & Hrun & Hval & _).
  - vm_compute; reflexivity.
  - vm_compute; reflexivity.
  - apply (bool_decide_unpack _). vm_compute. exact I.
  - apply (bool_decide_unpack _). vm_compute. exact I.
  - exists h'. split; [exact Hrun | exact Hval].
Defined.

(** X13. The order of the keys.  Under the same conditions the models of
    the first map keep their places, and the models only the second map has
    follow them in the order the second map lists them; the second map's
    keys are as before. *)
Theorem merge_pk_maps_key_order (h : gmap positive Store.object)
    (mm1 mm2 : positive) :
  Store.is_pk_map h mm1 = true →
  Store.is_pk_map h mm2 = true →
  Store.footprint h mm1 ## Store.footprint h mm2 →
  NoDup (Store.sets_of h mm1) →
  ∃ h', Store.merge_pk_maps mm1 mm2 h = Some (mm1, h') ∧
    Store.dict_keys h' mm1 =
      Store.dict_keys h mm1 ++
      filter (λ k, k ∉ Store.dict_keys h mm1) (Store.dict_keys h mm2) ∧
    Store.dict_keys h' mm2 = Store.dict_keys h mm2.
Proof.
  intros Hm1 Hm2 Hdisj Hnd.
  destruct (merge_pk_maps_values h mm1 mm2 Hm1 Hm2 Hdisj Hnd)
    as (h' & Hrun & Hsame & _ & Hkeys & _).
  exists h'. split; [done|]. split; [done|].
  apply dict_keys_frame, Hsame, self_in_footprint.
Qed.

Lemma merge_pk_maps_key_order_witness :
  ∃ h', Store.merge_pk_maps 1 2 Store.separate = Some (1%positive, h') ∧
    Store.dict_keys h' 1 = ["A"; "B"].
Proof.
  destruct (merge_pk_maps_key_order Store.separate 1 2)
    as (h' & Hrun & Hkeys & _).
  - vm_compute; reflexivity.
  - vm_compute; reflexivity.
  - apply (bool_decide_unpack _). vm_compute. exact I.
  - apply (bool_decide_unpack _). vm_compute. exact I.
  - exists h'. split; [exact Hrun | exact Hkeys].
Defined.
